(** * Intersection counter (main.cpp): shallow embedding and verified properties

    The program reads a grayscale image, turns it into a grid of booleans
    ([Image]), strides over the grid, runs a breadth-first flood fill ([BFS])
    from every sampled white pixel, classifies the collected black pixels by
    their four extremal pixels ([IsIntersection]), and finally removes
    near-duplicates among the recorded candidates before printing the count.

    Conventions of the embedding:
    - a C++ [int] is a [Z]; arithmetic that the source performs on ints goes
      through [int_add], [int_sub], [int_abs], which write out the 32-bit
      two's-complement wrap-around;
    - a [size_t] is a non-negative [Z]; comparing an [int] with a [size_t]
      converts the int with [to_size_t];
    - [std::vector] is a [list], indexed with stdpp's lookup and insert; an
      access outside the vector is undefined behaviour in the source and is
      a [Fault] here;
    - loops whose trip count is not syntactically bounded take fuel, and
      running out of fuel is the separate outcome [OutOfFuel]. *)

From Stdlib Require Import ZArith Lia.
From stdpp Require Import base tactics option list numbers strings pretty.

Local Open Scope Z_scope.

(** ** Machine integers *)

Definition INT_MIN : Z := -2147483648.
Definition INT_MAX : Z := 2147483647.

Definition wrap_int (z : Z) : Z := (z + 2147483648) mod 4294967296 - 2147483648.

Definition int_add (a b : Z) : Z := wrap_int (a + b).
Definition int_sub (a b : Z) : Z := wrap_int (a - b).
Definition int_abs (a : Z) : Z := wrap_int (Z.abs a).

(** Conversion of an [int] to [size_t] (64 bits, unsigned). *)
Definition to_size_t (z : Z) : Z := z mod 18446744073709551616.

(** [a < n] for an [int a] and a [size_t n], as C++ evaluates it. *)
Definition int_lt_size (a n : Z) : bool := to_size_t a <? n.

Definition is_int (z : Z) : Prop := INT_MIN <= z <= INT_MAX.

(** ** Outcomes: a result, undefined behaviour, or an exhausted budget *)

Inductive fault : Type :=
  | BadIndex (size : Z) (index : Z)   (* vector of [size] elements read or written at [index] *)
  | FrontOfEmptyQueue.

Inductive outcome (A : Type) : Type :=
  | Done (a : A)
  | Fault (f : fault)
  | OutOfFuel.
Arguments Done {A} a.
Arguments Fault {A} f.
Arguments OutOfFuel {A}.

#[global] Instance outcome_ret : MRet outcome := fun A a => Done a.
#[global] Instance outcome_bind : MBind outcome := fun A B k m =>
  match m with
  | Done a => k a
  | Fault f => Fault f
  | OutOfFuel => OutOfFuel
  end.

(** ** Vectors *)

(** [v[i]] for an [int i]: a negative index converts to a [size_t] beyond
    the size of any vector. *)
Definition vec_at {A : Type} (v : list A) (i : Z) : outcome A :=
  if i <? 0 then Fault (BadIndex (Z.of_nat (length v)) i)
  else match v !! Z.to_nat i with
       | Some a => Done a
       | None => Fault (BadIndex (Z.of_nat (length v)) i)
       end.

(** [v[i] = a]. *)
Definition vec_set {A : Type} (v : list A) (i : Z) (a : A) : outcome (list A) :=
  if (i <? 0) || (Z.of_nat (length v) <=? i)
  then Fault (BadIndex (Z.of_nat (length v)) i)
  else Done (<[Z.to_nat i := a]> v).

(** [g[i][j]] and [g[i][j] = a] for a vector of vectors. *)
Definition grid_at {A : Type} (g : list (list A)) (i j : Z) : outcome A :=
  r ← vec_at g i; vec_at r j.

Definition grid_set {A : Type} (g : list (list A)) (i j : Z) (a : A)
  : outcome (list (list A)) :=
  r ← vec_at g i; r' ← vec_set r j a; vec_set g i r'.

(** ** Pixel *)

Record Pixel : Type := mkPixel { x : Z; y : Z }.

#[global] Instance Pixel_eq_dec : EqDecision Pixel.
Proof. solve_decision. Defined.

#[global] Instance Pixel_inhabited : Inhabited Pixel := populate (mkPixel 0 0).

(** The default-constructed pixel, [Pixel()]. *)
Definition Pixel_default : Pixel := mkPixel 0 0.

Definition BAD_PIXEL : Pixel := mkPixel (-1) (-1).

(** ** Image *)

(** What [cv::imread] hands to the constructor: the extents and the 8-bit
    sample at every position. *)
Record Mat : Type := mkMat { mat_rows : Z; mat_cols : Z; mat_at : Z -> Z -> Z }.

(** The private member [is_white_]; its cells hold the result of the static
    [IsWhite(uchar)], that is 0 or 1, kept as a [bool]. *)
Record Image : Type := mkImage { is_white_ : list (list bool) }.

(** [static bool IsWhite(uchar color)] *)
Definition IsWhite_color (color : Z) : bool := color =? 0.

(** [Image::Image(cv::Mat)]: a [rows] by [cols] grid, each cell filled from
    the sample at the same position. *)
Definition Image_of_Mat (image : Mat) : Image :=
  mkImage
    ((fun i => (fun j => IsWhite_color (mat_at image i j)) <$> seqZ 0 (mat_cols image))
       <$> seqZ 0 (mat_rows image)).

Definition GetRows (image : Image) : Z := Z.of_nat (length (is_white_ image)).

(** [is_white_[0].size()]: reads the first row whether or not there is one. *)
Definition GetColumns (image : Image) : outcome Z :=
  r ← vec_at (is_white_ image) 0; mret (Z.of_nat (length r)).

Definition IsWhite (image : Image) (px py : Z) : outcome bool :=
  grid_at (is_white_ image) px py.

Definition IsWhite_pixel (image : Image) (pixel : Pixel) : outcome bool :=
  IsWhite image (x pixel) (y pixel).

(** [IsCorrect]: the conjunction short-circuits, so the first row is only
    looked at once [px] is known to index an existing row. *)
Definition IsCorrect (image : Image) (px py : Z) : outcome bool :=
  if (0 <=? px) && int_lt_size px (GetRows image) && (0 <=? py)
  then c ← GetColumns image; mret (int_lt_size py c)
  else mret false.

Definition GetNeighbours (image : Image) (px py : Z) : outcome (list Pixel) :=
  let neighbours : list Pixel := [] in
  c ← IsCorrect image (int_add px 1) py;
  let neighbours := if (c : bool) then neighbours ++ [mkPixel (int_add px 1) py] else neighbours in
  c ← IsCorrect image px (int_add py 1);
  let neighbours := if (c : bool) then neighbours ++ [mkPixel px (int_add py 1)] else neighbours in
  c ← IsCorrect image (int_sub px 1) py;
  let neighbours := if (c : bool) then neighbours ++ [mkPixel (int_sub px 1) py] else neighbours in
  c ← IsCorrect image px (int_sub py 1);
  let neighbours := if (c : bool) then neighbours ++ [mkPixel px (int_sub py 1)] else neighbours in
  mret neighbours.

Definition GetNeighbours_pixel (image : Image) (pixel : Pixel) : outcome (list Pixel) :=
  GetNeighbours image (x pixel) (y pixel).

(** ** BFS: the flood fill *)

(** [size_t] arithmetic of the loop condition. The divisor [black] is never
    zero in the source, so the quotient is the mathematical one. *)
Definition size_add (a b : Z) : Z := (a + b) mod 18446744073709551616.
Definition size_div (a b : Z) : Z := a / b.

Definition MIN_ITERATION_COUNT : Z := 200.
Definition MAX_ITERATION_COUNT : Z := 400.

(** The local variables of [BFS] that live across loop iterations, together
    with the caller's [black_pixels] vector. *)
Record BfsState : Type := mkBfs {
  queue : list Pixel;          (* front of the queue = head of the list *)
  used : list (list bool);
  white : Z;
  black : Z;
  black_pixels : list Pixel
}.

(** The condition of the [while]. *)
Definition BFS_continue (st : BfsState) : bool :=
  negb (bool_decide (queue st = []))
  && ((size_div (white st) (black st) =? 0)
      || (size_add (white st) (black st) <? MIN_ITERATION_COUNT))
  && (size_add (black st) (white st) <? MAX_ITERATION_COUNT).

(** The [for (auto p : image.GetNeighbours(next))] loop. *)
Fixpoint BFS_visit (neighbours : list Pixel) (q : list Pixel) (u : list (list bool))
  : outcome (list Pixel * list (list bool)) :=
  match neighbours with
  | [] => mret (q, u)
  | p :: rest =>
      seen ← grid_at u (x p) (y p);
      if (seen : bool) then BFS_visit rest q u
      else
        let q' := q ++ [p] in                       (* queue.push(p) *)
        u' ← grid_set u (x p) (y p) true;          (* used[p.x][p.y] = true *)
        BFS_visit rest q' u'
  end.

(** One iteration of the [while]: the popped pixel and the state after it. *)
Definition BFS_body (image : Image) (st : BfsState) : outcome (Pixel * BfsState) :=
  match queue st with
  | [] => Fault FrontOfEmptyQueue
  | next :: q =>
      w ← IsWhite_pixel image next;
      let bp := if (w : bool) then black_pixels st else black_pixels st ++ [next] in
      neighbours ← GetNeighbours_pixel image next;
      '(q', u') ← BFS_visit neighbours q (used st);
      mret (next, mkBfs q' u' (white st) (black st) bp)
  end.

(** The [while] loop. [visited] logs the popped pixels in order; the source
    has no such variable, it is kept to state properties of the traversal. *)
Fixpoint BFS_loop (fuel : nat) (image : Image) (st : BfsState) (visited : list Pixel)
  : outcome (BfsState * list Pixel) :=
  if BFS_continue st then
    match fuel with
    | O => OutOfFuel
    | S fuel' =>
        '(next, st') ← BFS_body image st;
        BFS_loop fuel' image st' (visited ++ [next])
    end
  else mret (st, visited).

(** Everything before the [while]. *)
Definition BFS_init (start : Pixel) (image : Image) (bp : list Pixel) : outcome BfsState :=
  c ← GetColumns image;
  let used0 := replicate (Z.to_nat (GetRows image)) (replicate (Z.to_nat c) false) in
  let q := [start] in
  u ← grid_set used0 (x start) (y start) true;
  mret (mkBfs q u 0 1 bp).

(** Number of cells of the grid: the iteration budget handed to the loop
    ([BFS_loop_terminates] shows that it is never exhausted). *)
Definition cell_count (image : Image) : nat :=
  (length (is_white_ image) * length (default [] (is_white_ image !! 0%nat)))%nat.

Definition BFS_run (start : Pixel) (image : Image) (bp : list Pixel)
  : outcome (BfsState * list Pixel) :=
  st ← BFS_init start image bp; BFS_loop (cell_count image) image st [].

(** [BFS(start, image, black_pixels)]: the caller's vector after the call. *)
Definition BFS (start : Pixel) (image : Image) (bp : list Pixel) : outcome (list Pixel) :=
  r ← BFS_run start image bp; mret (black_pixels r.1).

(** ** Extremal pixels and the classifier *)

Definition GetLeftest (pixels : list Pixel) : Pixel :=
  (foldl (fun '(best_pixel, min_x) p =>
            if x p <? min_x then (p, x p) else (best_pixel, min_x))
         (Pixel_default, INT_MAX) pixels).1.

Definition GetRightest (pixels : list Pixel) : Pixel :=
  (foldl (fun '(best_pixel, max_x) p =>
            if max_x <? x p then (p, x p) else (best_pixel, max_x))
         (Pixel_default, INT_MIN) pixels).1.

Definition GetLowest (pixels : list Pixel) : Pixel :=
  (foldl (fun '(best_pixel, min_y) p =>
            if y p <? min_y then (p, y p) else (best_pixel, min_y))
         (Pixel_default, INT_MIN) pixels).1.

Definition GetHighest (pixels : list Pixel) : Pixel :=
  (foldl (fun '(best_pixel, max_y) p =>
            if max_y <? y p then (p, y p) else (best_pixel, max_y))
         (Pixel_default, INT_MIN) pixels).1.

(** [AreSimilar(int, int)] and [AreSimilar(Pixel, Pixel)] *)
Definition AreSimilar_int (a b : Z) : bool := int_abs (int_sub a b) <? 5.

Definition AreSimilar (a b : Pixel) : bool :=
  AreSimilar_int (x a) (x b) && AreSimilar_int (y a) (y b).

(** The inner [for (j = i + 1; ...)] of the pair loop, with [a] the pixel at
    index [i] and [later] the pixels after it: [true] when the loop returns. *)
Fixpoint similar_to_later (a : Pixel) (later : list Pixel) : bool :=
  match later with
  | [] => false
  | b :: later' => if AreSimilar a b then true else similar_to_later a later'
  end.

(** The whole pair loop over [external_pixels]: [true] when it hits
    [return false]. *)
Fixpoint has_similar_pair (pixels : list Pixel) : bool :=
  match pixels with
  | [] => false
  | a :: later => if similar_to_later a later then true else has_similar_pair later
  end.

Definition external_pixels (bp : list Pixel) : list Pixel :=
  [GetLeftest bp; GetRightest bp; GetLowest bp; GetHighest bp].

(** [IsIntersection] from the line after the call of [BFS] on. *)
Definition classify (bp : list Pixel) : bool :=
  negb (has_similar_pair (external_pixels bp)).

Definition IsIntersection (start : Pixel) (image : Image) : outcome bool :=
  bp ← BFS start image []; mret (classify bp).

(** ** The candidate scan of [main] *)

Definition STEP : Z := 5.

(** The inner [for (int j = 0; j < image.GetColumns(); j += STEP)], entered
    with the current [i], [j] and candidate list. The body may move [i], so
    the loop returns it. *)
Fixpoint scan_columns (fuel : nat) (image : Image) (i j : Z) (found : list Pixel)
  : outcome (Z * list Pixel) :=
  c ← GetColumns image;
  if int_lt_size j c then
    match fuel with
    | O => OutOfFuel
    | S fuel' =>
        w ← IsWhite image i j;
        r ← (if (w : bool) then
               b ← IsIntersection (mkPixel i j) image;
               if (b : bool) then mret (int_add i 20, found ++ [mkPixel i j])
               else mret (i, found)
             else mret (i, found));
        scan_columns fuel' image r.1 (int_add j STEP) r.2
    end
  else mret (i, found).

(** Number of columns as an iteration budget for the inner loop. *)
Definition column_count (image : Image) : nat :=
  length (default [] (is_white_ image !! 0%nat)).

(** The outer [for (int i = 0; i < image.GetRows(); i += STEP)]. *)
Fixpoint scan_rows (fuel : nat) (image : Image) (i : Z) (found : list Pixel)
  : outcome (list Pixel) :=
  if int_lt_size i (GetRows image) then
    match fuel with
    | O => OutOfFuel
    | S fuel' =>
        r ← scan_columns (column_count image) image i 0 found;
        scan_rows fuel' image (int_add r.1 STEP) r.2
    end
  else mret found.

(** [potential_intersections] after both loops. *)
Definition scan (image : Image) : outcome (list Pixel) :=
  scan_rows (length (is_white_ image)) image 0 [].

(** ** Deduplication and the count *)

(** The inner [for (int j = i + 1; j < size; j++)] for a fixed [i]. Both
    indices are below the size by the loop conditions. *)
Definition mark_after (found : list Pixel) (i : nat) (is_bad_pixel : list bool) : list bool :=
  foldl (fun bad j =>
           if AreSimilar (found !!! i) (found !!! j) then <[j := true]> bad else bad)
        is_bad_pixel (seq (S i) (length found - S i)).

(** [is_bad_pixel] after the double loop. *)
Definition mark_bad (found : list Pixel) : list bool :=
  foldl (fun bad i => mark_after found i bad)
        (replicate (length found) false) (seq 0 (length found)).

(** [intersections_count] after the counting loop. *)
Definition count_not_bad (is_bad_pixel : list bool) : Z :=
  foldl (fun count (is_bad : bool) => if is_bad then count else int_add count 1)
        0 is_bad_pixel.

Definition intersections_count (found : list Pixel) : Z :=
  count_not_bad (mark_bad found).

(** ** main *)

Definition endl : string := String (Ascii.ascii_of_nat 10) EmptyString.

Definition usage : string := "You need to give name of png file" +:+ endl.

(** [main]: [decoded] is what [cv::imread] returned for [argv[1]]. The
    result is what was written to standard output and the exit code. *)
Definition main (argc : Z) (decoded : Mat) : outcome (string * Z) :=
  if argc <? 2 then mret (usage, 1)
  else
    let image := Image_of_Mat decoded in
    found ← scan image;
    mret (pretty (intersections_count found) +:+ endl, 0).

(** ** Vocabulary of the specification *)

(** Two pixels are near when both coordinate differences are below 5 in
    absolute value. *)
Definition near (a b : Pixel) : Prop :=
  Z.abs (x a - x b) < 5 /\ Z.abs (y a - y b) < 5.

(** Both coordinates are values of type [int]. *)
Definition int_pixel (p : Pixel) : Prop := is_int (x p) /\ is_int (y p).

(** Coordinates of a pixel of some image: non-negative ints. *)
Definition grid_pixel (p : Pixel) : Prop :=
  0 <= x p <= INT_MAX /\ 0 <= y p <= INT_MAX.

(** What the constructor establishes: every row has the same number of
    cells, and both extents are ints (they come from [cv::Mat]). *)
Definition Image_wf (image : Image) : Prop :=
  GetRows image <= INT_MAX /\
  exists c : nat, Z.of_nat c <= INT_MAX /\ Forall (fun r => length r = c) (is_white_ image).

(** [p] is a position of the grid. *)
Definition in_grid (image : Image) (p : Pixel) : Prop :=
  0 <= x p < GetRows image /\ 0 <= y p < Z.of_nat (column_count image).

(** The four extremal searches share one shape: a running best pixel and a
    running key, replaced together when [better k p] holds. *)
Definition search_step (better : Z -> Pixel -> bool) (key : Pixel -> Z)
  : Pixel * Z -> Pixel -> Pixel * Z :=
  fun '(best_pixel, k) p => if better k p then (p, key p) else (best_pixel, k).

(** The mat of the scan example: an 11 by 11 page with three ink samples. *)
Definition mat_three_dots : Mat :=
  mkMat 11 11 (fun i j =>
    if ((i =? 5) && (j =? 5)) || ((i =? 10) && (j =? 0)) || ((i =? 6) && (j =? 10))
    then 255 else 0).

(** ** Vocabulary of the flood-fill proofs *)

(** A vector of [R] vectors of [C] cells each. *)
Definition grid_shape (R C : nat) (g : list (list bool)) : Prop :=
  length g = R /\ Forall (fun r => length r = C) g.

(** [p] indexes a cell of an [R] by [C] grid. *)
Definition in_range (R C : nat) (p : Pixel) : Prop :=
  0 <= x p < Z.of_nat R /\ 0 <= y p < Z.of_nat C.

(** [used[p.x][p.y]] reads as true. *)
Definition marked (u : list (list bool)) (p : Pixel) : Prop :=
  grid_at u (x p) (y p) = Done true.

(** [!image.IsWhite(p)] evaluates to true: [p] is a stroke (black) pixel. *)
Definition is_stroke (image : Image) (p : Pixel) : bool :=
  match IsWhite_pixel image p with
  | Done false => true
  | _ => false
  end.

(** Loop configurations: the state and the log of popped pixels. One step
    is one iteration of the [while], taken when its condition holds. *)
Inductive BFS_reach (image : Image)
  : BfsState * list Pixel -> BfsState * list Pixel -> Prop :=
  | BFS_reach_here c : BFS_reach image c c
  | BFS_reach_step c st visited next st' :
      BFS_reach image c (st, visited) ->
      BFS_continue st = true ->
      BFS_body image st = Done (next, st') ->
      BFS_reach image c (st', visited ++ [next]).

(** The loop invariant: every pixel pushed so far ([visited ++ queue]) is a
    grid position, was pushed once, and is exactly what [used] marks; the
    neighbours of popped pixels have all been pushed; the counters are
    untouched; [black_pixels] holds the popped stroke pixels after the
    caller's [bp0]. *)
Record BFS_inv (image : Image) (bp0 : list Pixel) (st : BfsState) (visited : list Pixel)
  : Prop := mkBFS_inv {
  inv_shape : grid_shape (length (is_white_ image)) (column_count image) (used st);
  inv_white : white st = 0;
  inv_black : black st = 1;
  inv_nodup : NoDup (visited ++ queue st);
  inv_grid : Forall (in_grid image) (visited ++ queue st);
  inv_marked : forall p, in_grid image p -> marked (used st) p <-> p ∈ visited ++ queue st;
  inv_closed : forall p ns, p ∈ visited -> GetNeighbours_pixel image p = Done ns ->
               forall n, n ∈ ns -> n ∈ visited ++ queue st;
  inv_output : black_pixels st = bp0 ++ filter (fun p => is_stroke image p) visited
}.

(** Example images: a 2 by 2 page with one ink sample, and a single row
    whose two ink samples are separated by a blank one. *)
Definition image_2x2 : Image := mkImage [[true; true]; [false; true]].
Definition image_gap : Image := mkImage [[false; true; false]].

(** ** Vocabulary of the further properties *)

(** The four axis neighbours of [p] in the order in which [GetNeighbours]
    tests them. *)
Definition axis_neighbours (p : Pixel) : list Pixel :=
  [mkPixel (x p + 1) (y p); mkPixel (x p) (y p + 1);
   mkPixel (x p - 1) (y p); mkPixel (x p) (y p - 1)].

(** [st] with [pre] put in front of its [black_pixels]. *)
Definition with_prefix (pre : list Pixel) (st : BfsState) : BfsState :=
  mkBfs (queue st) (used st) (white st) (black st) (pre ++ black_pixels st).

(** What the scan requires of a pixel before recording it. *)
Definition accepted (image : Image) (p : Pixel) : Prop :=
  in_grid image p /\ IsWhite_pixel image p = Done true /\
  IsIntersection p image = Done true /\ (5 | x p) /\ (5 | y p).

(** Later entries lie at least 20 rows below earlier ones. *)
Definition spaced_rows (found : list Pixel) : Prop :=
  forall k k' a b, (k < k')%nat -> found !! k = Some a -> found !! k' = Some b ->
    x a + 20 <= x b.

(** A 16 by 2 page with three ink samples, on which the scan completes. *)
Definition mat_ladder : Mat :=
  mkMat 16 2 (fun i j =>
    if ((i =? 5) && (j =? 0)) || ((i =? 15) && (j =? 0)) || ((i =? 10) && (j =? 1))
    then 255 else 0).

(** [Pixel::operator==] and [Pixel::operator!=] *)
Definition Pixel_eq (a other : Pixel) : bool :=
  (x a =? x other) && (y a =? y other).

Definition Pixel_ne (a other : Pixel) : bool := negb (Pixel_eq a other).

(** ** The decision rule in the words of the specification *)

(** The first pixel of the list whose [key] is the minimum (maximum). *)
Definition first_min (key : Pixel -> Z) (pixels : list Pixel) (p : Pixel) : Prop :=
  exists i, pixels !! i = Some p /\
            Forall (fun q => key p <= key q) pixels /\
            forall i' q, (i' < i)%nat -> pixels !! i' = Some q -> key p < key q.

Definition first_max (key : Pixel -> Z) (pixels : list Pixel) (p : Pixel) : Prop :=
  exists i, pixels !! i = Some p /\
            Forall (fun q => key q <= key p) pixels /\
            forall i' q, (i' < i)%nat -> pixels !! i' = Some q -> key q < key p.

(** No two entries of the list, over all pairs of positions, are near. *)
Definition no_two_near (pixels : list Pixel) : Prop :=
  forall i j a b, (i < j)%nat -> pixels !! i = Some a -> pixels !! j = Some b ->
    ~ near a b.

(** A region is a junction when no two of its leftmost (minimum row),
    rightmost (maximum row), lowest (minimum column) and highest (maximum
    column) pixels are near. *)
Definition spec_junction (bp : list Pixel) : Prop :=
  exists leftmost rightmost lowest highest,
    first_min x bp leftmost /\ first_max x bp rightmost /\
    first_min y bp lowest /\ first_max y bp highest /\
    no_two_near [leftmost; rightmost; lowest; highest].

(** * Properties *)

(** ** Machine integers *)

Lemma wrap_int_id z : is_int z -> wrap_int z = z.
Proof.
  unfold is_int, INT_MIN, INT_MAX, wrap_int. intros Hz.
  rewrite Z.mod_small by lia. lia.
Qed.

Lemma to_size_t_id z : 0 <= z <= INT_MAX -> to_size_t z = z.
Proof.
  unfold INT_MAX, to_size_t. intros Hz. apply Z.mod_small. lia.
Qed.

Lemma AreSimilar_int_spec a b :
  0 <= a <= INT_MAX -> 0 <= b <= INT_MAX ->
  AreSimilar_int a b = true <-> Z.abs (a - b) < 5.
Proof.
  unfold AreSimilar_int, int_abs, int_sub, INT_MAX. intros Ha Hb.
  rewrite (wrap_int_id (a - b)) by (unfold is_int, INT_MIN, INT_MAX; lia).
  rewrite wrap_int_id by (unfold is_int, INT_MIN, INT_MAX; lia).
  apply Z.ltb_lt.
Qed.

Lemma AreSimilar_near a b :
  grid_pixel a -> grid_pixel b -> AreSimilar a b = true <-> near a b.
Proof.
  intros [Hax Hay] [Hbx Hby]. unfold AreSimilar, near.
  rewrite andb_true_iff, !AreSimilar_int_spec by done. done.
Qed.

(** ** Extremal pixels *)

Section extremal.
Variable better : Z -> Pixel -> bool.
Variable key : Pixel -> Z.

Lemma search_result_origin pixels b0 k0 :
  (foldl (search_step better key) (b0, k0) pixels).1 = b0 \/
  (foldl (search_step better key) (b0, k0) pixels).1 ∈ pixels.
Proof.
  revert b0 k0. induction pixels as [|p pixels IH]; intros b0 k0; simpl.
  - by left.
  - destruct (better k0 p).
    + destruct (IH p (key p)) as [-> | Hin]; right; [left | by right].
    + destruct (IH b0 k0) as [-> | Hin]; [by left | right; by right].
Qed.

Lemma search_never_better pixels b0 k0 :
  Forall (fun p => better k0 p = false) pixels ->
  foldl (search_step better key) (b0, k0) pixels = (b0, k0).
Proof.
  induction 1 as [|p pixels Hp _ IH]; simpl; [done |].
  by rewrite Hp.
Qed.
End extremal.

Lemma extremal_grid_pixel bp :
  Forall grid_pixel bp -> Forall grid_pixel (external_pixels bp).
Proof.
  intros Hbp.
  assert (Hd : grid_pixel Pixel_default) by (unfold grid_pixel, INT_MAX; simpl; lia).
  assert (Hsel : forall better key k0,
    grid_pixel (foldl (search_step better key) (Pixel_default, k0) bp).1).
  { intros better key k0.
    destruct (search_result_origin better key bp Pixel_default k0) as [-> | Hin]; [done |].
    by eapply Forall_forall in Hin. }
  unfold external_pixels. repeat apply Forall_cons_2; [..| apply Forall_nil_2].
  - apply (Hsel (fun k p => x p <? k) x).
  - apply (Hsel (fun k p => k <? x p) x).
  - apply (Hsel (fun k p => y p <? k) y).
  - apply (Hsel (fun k p => k <? y p) y).
Qed.

Lemma GetLowest_default pixels :
  Forall int_pixel pixels -> GetLowest pixels = Pixel_default.
Proof.
  intros Hint. unfold GetLowest.
  change (foldl _ _ pixels) with
    (foldl (search_step (fun k p => y p <? k) y) (Pixel_default, INT_MIN) pixels).
  rewrite search_never_better; [done |].
  eapply Forall_impl; [exact Hint |].
  intros p [_ [Hy _]]. simpl. apply Z.ltb_ge. done.
Qed.

Lemma GetHighest_fold pixels b0 k0 :
  let r := foldl (search_step (fun k p => k <? y p) y) (b0, k0) pixels in
  k0 <= r.2 /\ Forall (fun p => y p <= r.2) pixels /\
  (r = (b0, k0) \/ (r.1 ∈ pixels /\ y r.1 = r.2)).
Proof.
  revert b0 k0. induction pixels as [|p pixels IH]; intros b0 k0; simpl.
  - split; [lia |]. split; [done | by left].
  - destruct (Z.ltb_spec k0 (y p)) as [Hlt | Hge].
    + destruct (IH p (y p)) as (Hle & Hall & Hr). simpl in *.
      split; [lia |]. split; [by constructor |].
      right. destruct Hr as [-> | [Hin Hy]]; simpl; [split; [left | done] |].
      split; [by right | done].
    + destruct (IH b0 k0) as (Hle & Hall & Hr). simpl in *.
      split; [done |]. split; [constructor; [lia | done] |].
      destruct Hr as [Hr | [Hin Hy]]; [by left | right]. split; [by right | done].
Qed.

Lemma GetHighest_max pixels :
  (exists p, p ∈ pixels /\ INT_MIN < y p) ->
  GetHighest pixels ∈ pixels /\
  Forall (fun p => y p <= y (GetHighest pixels)) pixels.
Proof.
  intros (p & Hp & Hlt). unfold GetHighest.
  change (foldl _ _ pixels) with
    (foldl (search_step (fun k p => k <? y p) y) (Pixel_default, INT_MIN) pixels).
  destruct (GetHighest_fold pixels Pixel_default INT_MIN) as (Hle & Hall & Hr).
  simpl in *. destruct Hr as [Hr | [Hin Hy]].
  - rewrite Hr in Hall. simpl in Hall.
    eapply Forall_forall in Hall; [| exact Hp]. simpl in Hall. lia.
  - split; [done |]. by rewrite Hy.
Qed.

(** C4, as stated, fails for [GetHighest]: on the one-pixel list whose
    column coordinate is [INT_MIN] the running maximum is never beaten, and
    the default pixel comes back; it is not in the list and its column is
    not the list's maximum column. *)
Lemma GetHighest_INT_MIN_counterexample :
  let pixels := [mkPixel 0 INT_MIN] in
  Forall int_pixel pixels /\ pixels <> [] /\
  GetHighest pixels = mkPixel 0 0 /\
  (GetHighest pixels ∉ pixels) /\
  y (GetHighest pixels) <> INT_MIN.
Proof.
  simpl. split.
  { repeat constructor; unfold is_int, INT_MIN, INT_MAX; simpl; lia. }
  split; [done |]. split; [reflexivity |]. split.
  - intros Hin. apply list_elem_of_singleton in Hin. discriminate Hin.
  - unfold GetHighest. simpl. unfold INT_MIN. discriminate.
Qed.

(** C4 (amended): for every list of pixels (with int coordinates)
    [GetLowest] returns the default pixel (0,0), because no column is below
    the baseline [INT_MIN]; [GetHighest] returns a pixel of the list whose
    column is the maximum whenever some pixel's column is above [INT_MIN]. *)
Theorem GetLowest_default_GetHighest_max pixels :
  Forall int_pixel pixels ->
  GetLowest pixels = mkPixel 0 0 /\
  ((exists p, p ∈ pixels /\ INT_MIN < y p) ->
   GetHighest pixels ∈ pixels /\
   Forall (fun p => y p <= y (GetHighest pixels)) pixels).
Proof.
  intros Hint. split.
  - by apply GetLowest_default.
  - apply GetHighest_max.
Qed.

Lemma GetLowest_default_GetHighest_max_witness :
  let pixels := [mkPixel 3 7; mkPixel 1 2; mkPixel 4 9] in
  GetLowest pixels = mkPixel 0 0 /\ GetHighest pixels ∈ pixels.
Proof.
  simpl.
  assert (Hint : Forall int_pixel [mkPixel 3 7; mkPixel 1 2; mkPixel 4 9]).
  { repeat constructor; unfold is_int, INT_MIN, INT_MAX; simpl; lia. }
  destruct (GetLowest_default_GetHighest_max _ Hint) as [Hlow Hhigh].
  split; [exact Hlow |].
  apply Hhigh. exists (mkPixel 3 7). split; [left | unfold INT_MIN; simpl; lia].
Defined.

(** ** The classifier *)

Lemma similar_to_later_spec a later :
  similar_to_later a later = true <->
  exists j b, later !! j = Some b /\ AreSimilar a b = true.
Proof.
  induction later as [|c later IH]; simpl.
  - split; [done | intros (j & b & Hj & _); by rewrite lookup_nil in Hj].
  - destruct (AreSimilar a c) eqn:Hac.
    + split; [intros _ | done]. by exists 0%nat, c.
    + rewrite IH. split.
      * intros (j & b & Hj & Hab). by exists (S j), b.
      * intros (j & b & Hj & Hab). destruct j as [|j]; simpl in Hj.
        -- injection Hj as ->. congruence.
        -- by exists j, b.
Qed.

Lemma has_similar_pair_spec pixels :
  has_similar_pair pixels = true <->
  exists i j a b, (i < j)%nat /\ pixels !! i = Some a /\ pixels !! j = Some b /\
                  AreSimilar a b = true.
Proof.
  induction pixels as [|c pixels IH]; simpl.
  - split; [done | intros (i & j & a & b & _ & Hi & _); by rewrite lookup_nil in Hi].
  - destruct (similar_to_later c pixels) eqn:Hc.
    + split; [intros _ | done].
      apply similar_to_later_spec in Hc as (j & b & Hj & Hcb).
      exists 0%nat, (S j), c, b. repeat split; [lia | done..].
    + rewrite IH. split.
      * intros (i & j & a & b & Hij & Hi & Hj & Hab).
        exists (S i), (S j), a, b. repeat split; [lia | done..].
      * intros (i & j & a & b & Hij & Hi & Hj & Hab).
        destruct j as [|j]; [lia |]. destruct i as [|i]; simpl in *.
        -- injection Hi as ->.
           assert (similar_to_later a pixels = true) as Hs
             by (apply similar_to_later_spec; by exists j, b).
           congruence.
        -- exists i, j, a, b. repeat split; [lia | done..].
Qed.

Lemma classify_spec bp :
  Forall grid_pixel bp ->
  classify bp = true <->
  forall i j a b, (i < j)%nat ->
    external_pixels bp !! i = Some a -> external_pixels bp !! j = Some b ->
    ~ near a b.
Proof.
  intros Hbp. apply extremal_grid_pixel in Hbp.
  unfold classify. rewrite negb_true_iff, <- not_true_iff_false, has_similar_pair_spec.
  split.
  - intros Hnone i j a b Hij Hi Hj Hnear. apply Hnone.
    exists i, j, a, b. repeat split; [done..|].
    apply AreSimilar_near; [| | done].
    + eapply Forall_lookup_1 in Hi; eauto.
    + eapply Forall_lookup_1 in Hj; eauto.
  - intros Hall (i & j & a & b & Hij & Hi & Hj & Hab).
    apply (Hall i j a b Hij Hi Hj). apply AreSimilar_near; [| | done].
    + eapply Forall_lookup_1 in Hi; eauto.
    + eapply Forall_lookup_1 in Hj; eauto.
Qed.

(** ** Vectors and grids *)

Lemma vec_at_Done {A} (v : list A) i a :
  vec_at v i = Done a <-> 0 <= i /\ v !! Z.to_nat i = Some a.
Proof.
  unfold vec_at. destruct (Z.ltb_spec i 0) as [Hneg | Hpos].
  - split; [done | lia].
  - destruct (v !! Z.to_nat i) as [b|]; split; try done.
    + intros [= ->]. done.
    + intros [_ [= ->]]. done.
    + intros [_ ?]. done.
Qed.

Lemma vec_at_in_range {A} (v : list A) i :
  0 <= i < Z.of_nat (length v) -> exists a, vec_at v i = Done a /\ v !! Z.to_nat i = Some a.
Proof.
  intros Hi. destruct (lookup_lt_is_Some_2 v (Z.to_nat i)) as [a Ha]; [lia |].
  exists a. split; [| done]. apply vec_at_Done. split; [lia | done].
Qed.

Lemma vec_set_in_range {A} (v : list A) i a :
  0 <= i < Z.of_nat (length v) -> vec_set v i a = Done (<[Z.to_nat i := a]> v).
Proof.
  intros Hi. unfold vec_set.
  destruct (Z.ltb_spec i 0); [lia |]. destruct (Z.leb_spec (Z.of_nat (length v)) i); [lia |].
  done.
Qed.

Lemma vec_at_insert_ne {A} (v : list A) k a i :
  Z.to_nat i <> k -> vec_at (<[k := a]> v) i = vec_at v i.
Proof.
  intros Hne. unfold vec_at. rewrite length_insert.
  rewrite list_lookup_insert_ne by done. done.
Qed.

Section grid.
Variables R C : nat.

Lemma grid_at_shape (g : list (list bool)) p :
  grid_shape R C g -> in_range R C p ->
  exists r b, g !! Z.to_nat (x p) = Some r /\ r !! Z.to_nat (y p) = Some b /\
              length r = C /\ grid_at g (x p) (y p) = Done b.
Proof.
  intros [Hlen Hrows] [Hx Hy].
  destruct (vec_at_in_range g (x p)) as (r & Hr & Hgr); [lia |].
  assert (length r = C) as Hr_len by (eapply Forall_lookup_1 in Hgr; eauto; done).
  destruct (vec_at_in_range r (y p)) as (b & Hb & Hrb); [lia |].
  exists r, b. repeat split; try done.
  unfold grid_at. rewrite Hr. simpl. exact Hb.
Qed.

Lemma grid_set_shape (g : list (list bool)) p v :
  grid_shape R C g -> in_range R C p ->
  exists g', grid_set g (x p) (y p) v = Done g' /\ grid_shape R C g' /\
    forall q, in_range R C q ->
      grid_at g' (x q) (y q) = if decide (q = p) then Done v else grid_at g (x q) (y q).
Proof.
  intros Hshape Hp.
  destruct (grid_at_shape g p Hshape Hp) as (r & b & Hgr & Hrb & Hr_len & Hat).
  destruct Hshape as [Hlen Hrows]. destruct Hp as [Hx Hy].
  exists (<[Z.to_nat (x p) := <[Z.to_nat (y p) := v]> r]> g).
  split; [| split].
  - unfold grid_set.
    assert (vec_at g (x p) = Done r) as -> by (apply vec_at_Done; split; [lia | done]).
    simpl. rewrite vec_set_in_range by lia. simpl.
    rewrite vec_set_in_range by lia. done.
  - split; [by rewrite length_insert |].
    apply Forall_insert; [done |]. by rewrite length_insert.
  - intros q [Hqx Hqy]. unfold grid_at.
    destruct (decide (q = p)) as [-> | Hne].
    + assert (vec_at (<[Z.to_nat (x p) := <[Z.to_nat (y p) := v]> r]> g) (x p)
              = Done (<[Z.to_nat (y p) := v]> r)) as ->.
      { apply vec_at_Done. split; [lia |]. apply list_lookup_insert_eq. lia. }
      simpl. apply vec_at_Done. split; [lia |]. apply list_lookup_insert_eq. lia.
    + destruct (decide (x q = x p)) as [Hxe | Hxne].
      * assert (y q <> y p) as Hyne.
        { intros Hye. apply Hne. destruct q, p; simpl in *; congruence. }
        rewrite Hxe.
        assert (vec_at (<[Z.to_nat (x p) := <[Z.to_nat (y p) := v]> r]> g) (x p)
                = Done (<[Z.to_nat (y p) := v]> r)) as ->.
        { apply vec_at_Done. split; [lia |]. apply list_lookup_insert_eq. lia. }
        assert (vec_at g (x p) = Done r) as -> by (apply vec_at_Done; split; [lia | done]).
        simpl. apply vec_at_insert_ne. lia.
      * rewrite vec_at_insert_ne by lia. done.
Qed.
End grid.

(** ** The neighbour loop of the flood fill *)

Lemma marked_after_set R C (u u1 : list (list bool)) p :
  in_range R C p ->
  (forall q, in_range R C q ->
     grid_at u1 (x q) (y q) = if decide (q = p) then Done true else grid_at u (x q) (y q)) ->
  forall q, in_range R C q -> marked u1 q <-> q = p \/ marked u q.
Proof.
  intros Hp Hget q Hq. unfold marked. rewrite (Hget q Hq).
  destruct (decide (q = p)) as [-> | Hne]; [by split; [left |] |].
  split; [by right | by intros [? | ?]].
Qed.

Lemma BFS_visit_spec R C neighbours :
  Forall (in_range R C) neighbours ->
  forall q u, grid_shape R C u ->
  exists new u',
    BFS_visit neighbours q u = Done (q ++ new, u') /\
    grid_shape R C u' /\
    NoDup new /\
    (forall p, p ∈ new -> p ∈ neighbours /\ ~ marked u p) /\
    (forall p, in_range R C p -> marked u' p <-> marked u p \/ p ∈ new) /\
    (forall n, n ∈ neighbours -> marked u' n).
Proof.
  induction 1 as [|p rest Hp Hrest IH]; intros q u Hshape.
  - exists [], u. rewrite app_nil_r. simpl.
    split; [done |]. split; [done |]. split; [apply NoDup_nil_2 |].
    split; [| split].
    + intros p Hin. by apply elem_of_nil in Hin.
    + intros p _. split; [by left |].
      intros [? | Hin]; [done | by apply elem_of_nil in Hin].
    + intros n Hin. by apply elem_of_nil in Hin.
  - destruct (grid_at_shape R C u p Hshape Hp) as (r & b & _ & _ & _ & Hat).
    simpl. rewrite Hat. simpl. destruct b.
    + destruct (IH q u Hshape) as (new & u' & Hrun & Hshape' & Hnd & Hnew & Hmark & Hall).
      exists new, u'.
      split; [done |]. split; [done |]. split; [done |]. split; [| split; [done |]].
      * intros p' Hin. apply Hnew in Hin as [? ?]. split; [by right | done].
      * intros n [-> | Hin]%elem_of_cons; [| by apply Hall].
        apply Hmark; [done | by left].
    + destruct (grid_set_shape R C u p true Hshape Hp) as (u1 & Hset & Hshape1 & Hget).
      rewrite Hset. simpl.
      pose proof (marked_after_set R C u u1 p Hp Hget) as Hm1.
      destruct (IH (q ++ [p]) u1 Hshape1)
        as (new & u' & Hrun & Hshape' & Hnd & Hnew & Hmark & Hall).
      exists (p :: new), u'. rewrite <- app_assoc in Hrun. simpl in Hrun.
      split; [done |]. split; [done |]. split; [| split; [| split]].
      * apply NoDup_cons. split; [| done].
        intros Hin. apply Hnew in Hin as [_ Hnm]. apply Hnm. apply Hm1; [done | by left].
      * intros p' [-> | Hin]%elem_of_cons.
        -- split; [by left |]. unfold marked. rewrite Hat. discriminate.
        -- apply Hnew in Hin as [Hin Hnm]. split; [by right |].
           intros Hm. apply Hnm. apply Hm1; [| by right].
           eapply Forall_forall in Hrest; eauto.
      * intros p' Hp'. rewrite (Hmark p' Hp'), (Hm1 p' Hp'), elem_of_cons. tauto.
      * intros n [-> | Hin]%elem_of_cons; [| by apply Hall].
        apply Hmark; [done |]. left. apply Hm1; [done | by left].
Qed.

(** ** The image queries *)

Lemma wrap_int_is_int z : is_int (wrap_int z).
Proof.
  unfold is_int, wrap_int, INT_MIN, INT_MAX.
  pose proof (Z.mod_pos_bound (z + 2147483648) 4294967296). lia.
Qed.

Lemma in_grid_in_range image p :
  in_grid image p <-> in_range (length (is_white_ image)) (column_count image) p.
Proof. done. Qed.

Lemma GetColumns_nonempty image :
  0 < GetRows image -> GetColumns image = Done (Z.of_nat (column_count image)).
Proof.
  unfold GetRows, GetColumns, column_count, vec_at. simpl.
  destruct (is_white_ image) as [|r rows]; simpl; [lia | done].
Qed.

Lemma IsCorrect_spec image px py :
  is_int px -> is_int py ->
  IsCorrect image px py = Done (bool_decide (in_grid image (mkPixel px py))).
Proof.
  unfold is_int, INT_MIN. intros Hx Hy. unfold IsCorrect, int_lt_size, in_grid. simpl.
  destruct (Z.leb_spec 0 px) as [Hx0 | Hx0]; simpl.
  2: { rewrite bool_decide_eq_false_2; [done | lia]. }
  rewrite to_size_t_id by lia.
  destruct (Z.ltb_spec px (GetRows image)) as [Hx1 | Hx1]; simpl.
  2: { rewrite bool_decide_eq_false_2; [done | lia]. }
  destruct (Z.leb_spec 0 py) as [Hy0 | Hy0]; simpl.
  2: { rewrite bool_decide_eq_false_2; [done | lia]. }
  rewrite GetColumns_nonempty by lia. simpl.
  rewrite to_size_t_id by lia. unfold mret, outcome_ret. f_equal.
  destruct (Z.ltb_spec py (Z.of_nat (column_count image))).
  - rewrite bool_decide_eq_true_2; [done | lia].
  - rewrite bool_decide_eq_false_2; [done | lia].
Qed.

Lemma GetNeighbours_spec image px py :
  is_int px -> is_int py ->
  exists ns, GetNeighbours image px py = Done ns /\ Forall (in_grid image) ns.
Proof.
  intros Hx Hy. unfold GetNeighbours, int_add, int_sub.
  rewrite !IsCorrect_spec by (done || apply wrap_int_is_int). simpl.
  repeat case_bool_decide; simpl; eexists; (split; [reflexivity |]);
    repeat (apply Forall_cons_2; [done |]); apply Forall_nil_2.
Qed.

Lemma Image_of_Mat_wf decoded :
  mat_rows decoded <= INT_MAX -> mat_cols decoded <= INT_MAX ->
  Image_wf (Image_of_Mat decoded).
Proof.
  intros HR HC. unfold Image_wf, GetRows, Image_of_Mat, INT_MAX in *. simpl.
  rewrite length_fmap, length_seqZ. split; [lia |].
  exists (Z.to_nat (mat_cols decoded)). split; [lia |].
  apply Forall_fmap, Forall_forall. intros i _. simpl.
  by rewrite length_fmap, length_seqZ.
Qed.

Lemma Image_wf_shape image :
  Image_wf image ->
  grid_shape (length (is_white_ image)) (column_count image) (is_white_ image).
Proof.
  intros (_ & c & _ & Hrows). split; [done |]. unfold column_count.
  destruct (is_white_ image) as [|r rows]; simpl in *; [done |].
  apply Forall_cons in Hrows as [Hr Hrows]. rewrite Hr. by constructor.
Qed.

Lemma Image_wf_grid_pixel image p :
  Image_wf image -> in_grid image p -> grid_pixel p.
Proof.
  intros (HR & c & Hc & Hrows) [Hx Hy]. unfold grid_pixel. split; [lia |].
  unfold GetRows, column_count in *.
  destruct (is_white_ image) as [|r rows]; simpl in *; [lia |].
  apply Forall_cons in Hrows as [Hr _]. lia.
Qed.

Lemma grid_pixel_int p : grid_pixel p -> int_pixel p.
Proof. unfold grid_pixel, int_pixel, is_int, INT_MIN. lia. Qed.

Lemma IsWhite_in_grid image p :
  Image_wf image -> in_grid image p -> exists w, IsWhite_pixel image p = Done w.
Proof.
  intros Hwf Hp.
  destruct (grid_at_shape _ _ _ p (Image_wf_shape image Hwf) Hp) as (r & b & _ & _ & _ & Hat).
  by exists b.
Qed.

Lemma BFS_continue_inert st :
  white st = 0 -> black st = 1 ->
  BFS_continue st = negb (bool_decide (queue st = [])).
Proof.
  intros Hw Hb. unfold BFS_continue. rewrite Hw, Hb.
  change (size_div 0 1 =? 0) with true.
  change (size_add 1 0 <? MAX_ITERATION_COUNT) with true.
  simpl. by rewrite !andb_true_r.
Qed.

(** A duplicate-free list of grid positions is no longer than the grid has
    cells. *)
Lemma NoDup_in_range_length R C (l : list Pixel) :
  NoDup l -> Forall (in_range R C) l -> (length l <= R * C)%nat.
Proof.
  intros Hnd Hall.
  set (code := fun p : Pixel => (Z.to_nat (x p) * C + Z.to_nat (y p))%nat).
  enough (length (code <$> l) <= length (seq 0 (R * C)))%nat as Hle
    by (by rewrite length_fmap, length_seq in Hle).
  apply submseteq_length, NoDup_submseteq.
  - apply NoDup_fmap_2_strong; [| done].
    intros p q Hp Hq Heq.
    eapply Forall_forall in Hp; [| exact Hall]. eapply Forall_forall in Hq; [| exact Hall].
    destruct Hp as [Hpx Hpy], Hq as [Hqx Hqy]. unfold code in Heq.
    assert (Z.to_nat (x p) = Z.to_nat (x q)) as Hx by nia.
    assert (Z.to_nat (y p) = Z.to_nat (y q)) as Hy by nia.
    destruct p, q; simpl in *. f_equal; lia.
  - intros n (p & -> & Hp)%list_elem_of_fmap.
    eapply Forall_forall in Hp; [| exact Hall]. destruct Hp as [Hpx Hpy].
    apply elem_of_seq. unfold code. nia.
Qed.

(** ** The flood-fill loop *)

Lemma is_stroke_Done image p w :
  IsWhite_pixel image p = Done w -> is_stroke image p = negb w.
Proof. unfold is_stroke. intros ->. by destruct w. Qed.

Lemma BFS_body_inv image bp0 st visited next q :
  Image_wf image -> BFS_inv image bp0 st visited -> queue st = next :: q ->
  exists st', BFS_body image st = Done (next, st') /\
              visited ++ queue st `prefix_of` (visited ++ [next]) ++ queue st' /\
              BFS_inv image bp0 st' (visited ++ [next]).
Proof.
  intros Hwf [Hshape Hw Hb Hnd Hgrid Hmark Hclosed Hout] Hq. rewrite Hq in *.
  assert (in_grid image next) as Hnext.
  { apply Forall_app in Hgrid as [_ Hgrid]. by apply Forall_cons in Hgrid as [? _]. }
  destruct (IsWhite_in_grid image next Hwf Hnext) as [w Hwhite].
  destruct (GetNeighbours_spec image (x next) (y next)) as (ns & Hns & Hns_grid);
    [apply (grid_pixel_int next), (Image_wf_grid_pixel image); done.. |].
  destruct (BFS_visit_spec _ _ ns Hns_grid q (used st) Hshape)
    as (new & u' & Hvisit & Hshape' & Hnd_new & Hnew & Hmark' & Hall).
  eexists. split.
  { unfold BFS_body. rewrite Hq, Hwhite. simpl.
    unfold GetNeighbours_pixel. rewrite Hns. simpl. rewrite Hvisit. simpl. reflexivity. }
  assert ((visited ++ [next]) ++ q ++ new = (visited ++ next :: q) ++ new) as Heq
    by (by rewrite <- !app_assoc).
  split; [simpl; rewrite Heq; by exists new |].
  constructor; simpl; rewrite ?Heq; try done.
  - apply NoDup_app. split; [done |]. split; [| done].
    intros p Hold Hin. apply Hnew in Hin as [_ Hnm]. apply Hnm. apply Hmark; [| done].
    eapply Forall_forall in Hgrid; eauto.
  - apply Forall_app. split; [done |]. apply Forall_forall. intros p Hin.
    apply Hnew in Hin as [Hin _]. eapply Forall_forall in Hns_grid; eauto.
  - intros p Hp. rewrite (Hmark' p Hp), (Hmark p Hp), !elem_of_app. done.
  - intros p ns' Hin Hns' n Hn. apply elem_of_app.
    apply elem_of_app in Hin as [Hin | ->%list_elem_of_singleton].
    + left. by eapply Hclosed.
    + unfold GetNeighbours_pixel in Hns'. rewrite Hns in Hns'. injection Hns' as <-.
      assert (in_grid image n) as Hn_grid by (eapply Forall_forall in Hns_grid; eauto).
      apply Hall in Hn. apply (Hmark' n Hn_grid) in Hn as [Hn | Hn]; [left | by right].
      by apply Hmark.
  - rewrite filter_app, app_assoc, <- Hout. f_equal.
    rewrite filter_cons, filter_nil, (is_stroke_Done image next w Hwhite).
    destruct w; simpl; [by rewrite app_nil_r | done].
Qed.

Lemma BFS_init_inv image start bp :
  Image_wf image -> in_grid image start ->
  exists st0, BFS_init start image bp = Done st0 /\ queue st0 = [start] /\
              BFS_inv image bp st0 [].
Proof.
  intros Hwf Hstart. unfold BFS_init.
  rewrite GetColumns_nonempty by (destruct Hstart; lia). simpl.
  unfold GetRows. rewrite !Nat2Z.id.
  set (R := length (is_white_ image)). set (C := column_count image).
  assert (grid_shape R C (replicate R (replicate C false))) as Hshape0.
  { split; [apply length_replicate |]. apply Forall_replicate, length_replicate. }
  destruct (grid_set_shape R C _ start true Hshape0 Hstart) as (u & Hset & Hshape & Hget).
  rewrite Hset. simpl. eexists. split; [reflexivity |]. split; [done |].
  pose proof (marked_after_set R C _ u start Hstart Hget) as Hm.
  assert (forall p, in_range R C p -> ~ marked (replicate R (replicate C false)) p) as Hnone.
  { intros p Hp. unfold marked.
    destruct (grid_at_shape R C _ p Hshape0 Hp) as (r & b & Hr & Hb & _ & ->).
    apply lookup_replicate in Hr as [-> _]. apply lookup_replicate in Hb as [-> _].
    discriminate. }
  constructor; simpl; try done.
  - apply NoDup_singleton.
  - by apply Forall_singleton.
  - intros p Hp. rewrite (Hm p Hp), list_elem_of_singleton.
    split; [intros [? | ?]; [done | by apply Hnone in H] | by left].
  - intros p ns Hin. by apply elem_of_nil in Hin.
  - by rewrite app_nil_r.
Qed.

Lemma BFS_inv_bound image bp0 st visited :
  BFS_inv image bp0 st visited ->
  (length visited + length (queue st) <= cell_count image)%nat.
Proof.
  intros Hinv. rewrite <- length_app.
  apply NoDup_in_range_length; [apply (inv_nodup _ _ _ _ Hinv) |].
  apply (inv_grid _ _ _ _ Hinv).
Qed.

Lemma BFS_reach_inv image bp0 c st visited :
  Image_wf image -> BFS_inv image bp0 c.1 c.2 ->
  BFS_reach image c (st, visited) ->
  BFS_inv image bp0 st visited /\ c.2 ++ queue c.1 `prefix_of` visited ++ queue st.
Proof.
  intros Hwf Hinv Hreach.
  remember (st, visited) as c' eqn:Hc'. revert st visited Hc'.
  induction Hreach as [c | c st1 visited1 next st2 Hreach IH Hcont Hbody];
    intros st visited Hc'.
  - subst c. done.
  - injection Hc' as <- <-.
    destruct (IH Hinv st1 visited1 eq_refl) as [Hinv1 Hpre1].
    rewrite (BFS_continue_inert st1) in Hcont
      by (apply (inv_white _ _ _ _ Hinv1) || apply (inv_black _ _ _ _ Hinv1)).
    apply negb_true_iff, bool_decide_eq_false in Hcont.
    destruct (queue st1) as [|next' q] eqn:Hq; [done |].
    destruct (BFS_body_inv image bp0 st1 visited1 next' q Hwf Hinv1 Hq)
      as (st' & Hbody' & Hpre & Hinv').
    rewrite Hbody in Hbody'. injection Hbody' as -> ->.
    split; [done |]. rewrite Hq in Hpre. by etrans.
Qed.

Lemma BFS_reach_trans image c1 c2 c3 :
  BFS_reach image c1 c2 -> BFS_reach image c2 c3 -> BFS_reach image c1 c3.
Proof.
  intros H12 H23. induction H23 as [| c2 st visited next st' _ IH Hcont Hbody]; [done |].
  eapply BFS_reach_step; [by apply IH | done..].
Qed.

Lemma BFS_loop_terminates image bp0 fuel :
  Image_wf image ->
  forall st visited,
    BFS_inv image bp0 st visited ->
    (cell_count image <= fuel + length visited)%nat ->
    exists st' visited',
      BFS_loop fuel image st visited = Done (st', visited') /\
      queue st' = [] /\
      BFS_reach image (st, visited) (st', visited').
Proof.
  intros Hwf. induction fuel as [|fuel IH]; intros st visited Hinv Hfuel.
  - pose proof (BFS_inv_bound _ _ _ _ Hinv) as Hbound.
    assert (queue st = []) as Hq by (destruct (queue st); simpl in *; [done | lia]).
    exists st, visited. simpl.
    rewrite (BFS_continue_inert st)
      by (apply (inv_white _ _ _ _ Hinv) || apply (inv_black _ _ _ _ Hinv)).
    rewrite Hq. simpl. split; [done |]. split; [done | constructor].
  - simpl.
    pose proof (BFS_continue_inert st (inv_white _ _ _ _ Hinv) (inv_black _ _ _ _ Hinv))
      as Hcont.
    destruct (queue st) as [|next q] eqn:Hq.
    + rewrite Hcont. simpl. exists st, visited. split; [done |]. split; [done | constructor].
    + rewrite Hcont. simpl.
      destruct (BFS_body_inv image bp0 st visited next q Hwf Hinv Hq)
        as (st1 & Hbody & _ & Hinv1).
      rewrite Hbody. simpl.
      destruct (IH st1 (visited ++ [next]) Hinv1) as (st' & visited' & Hloop & Hq' & Hreach).
      { rewrite length_app. simpl. lia. }
      exists st', visited'. split; [done |]. split; [done |].
      eapply BFS_reach_trans; [| exact Hreach].
      eapply BFS_reach_step; [constructor | by rewrite Hcont | done].
Qed.

Lemma BFS_run_spec image start bp :
  Image_wf image -> in_grid image start ->
  exists st0 st visited,
    BFS_init start image bp = Done st0 /\
    BFS_run start image bp = Done (st, visited) /\
    queue st = [] /\
    BFS_inv image bp st visited /\
    BFS_reach image (st0, []) (st, visited) /\
    [start] `prefix_of` visited.
Proof.
  intros Hwf Hstart.
  destruct (BFS_init_inv image start bp Hwf Hstart) as (st0 & Hinit & Hq0 & Hinv0).
  destruct (BFS_loop_terminates image bp (cell_count image) Hwf st0 [] Hinv0)
    as (st & visited & Hloop & Hq & Hreach); [simpl; lia |].
  destruct (BFS_reach_inv image bp (st0, []) st visited Hwf Hinv0 Hreach) as [Hinv Hpre].
  exists st0, st, visited. split; [done |]. split.
  { unfold BFS_run. rewrite Hinit. simpl. exact Hloop. }
  split; [done |]. split; [done |]. split; [done |].
  simpl in Hpre. by rewrite Hq0, Hq, app_nil_r in Hpre.
Qed.

(** ** The counters of the flood fill *)

Lemma BFS_body_counters image st next st' :
  BFS_body image st = Done (next, st') ->
  white st' = white st /\ black st' = black st.
Proof.
  unfold BFS_body. destruct (queue st) as [|p q]; [done |].
  destruct (IsWhite_pixel image p) as [w | |]; simpl; try done.
  destruct (GetNeighbours_pixel image p) as [ns | |]; simpl; try done.
  destruct (BFS_visit ns q (used st)) as [[q' u'] | |]; simpl; try done.
  intros [= _ <-]. done.
Qed.

Lemma BFS_init_counters start image bp st0 :
  BFS_init start image bp = Done st0 -> white st0 = 0 /\ black st0 = 1.
Proof.
  unfold BFS_init. destruct (GetColumns image) as [c | |]; simpl; try done.
  destruct (grid_set _ _ _ _) as [u | |]; simpl; try done.
  intros [= <-]. done.
Qed.

Lemma BFS_reach_counters image c st visited :
  BFS_reach image c (st, visited) ->
  white st = white c.1 /\ black st = black c.1.
Proof.
  intros Hreach. remember (st, visited) as c' eqn:Hc'. revert st visited Hc'.
  induction Hreach as [c | c st1 visited1 next st2 _ IH _ Hbody]; intros st visited Hc'.
  - by subst c.
  - injection Hc' as <- <-. destruct (IH st1 visited1 eq_refl) as [<- <-].
    by apply BFS_body_counters in Hbody.
Qed.

Lemma BFS_loop_exit image fuel :
  forall st visited st' visited',
    white st = 0 -> black st = 1 ->
    BFS_loop fuel image st visited = Done (st', visited') ->
    queue st' = [] /\ white st' = 0 /\ black st' = 1.
Proof.
  induction fuel as [|fuel IH]; intros st visited st' visited' Hw Hb; simpl;
    rewrite (BFS_continue_inert st Hw Hb);
    destruct (queue st) as [|p q] eqn:Hq; simpl; try done.
  - intros [= <- <-]. done.
  - intros [= <- <-]. done.
  - destruct (BFS_body image st) as [[next st1] | |] eqn:Hbody; simpl; try done.
    apply BFS_body_counters in Hbody as [Hw1 Hb1].
    apply IH; congruence.
Qed.

Lemma Image_wf_image_2x2 : Image_wf image_2x2.
Proof.
  split; [unfold GetRows, INT_MAX; simpl; lia |].
  exists 2%nat. split; [unfold INT_MAX; lia |]. repeat constructor.
Qed.

Lemma in_grid_image_2x2_origin : in_grid image_2x2 (mkPixel 0 0).
Proof. unfold in_grid, GetRows, column_count. simpl. lia. Qed.

(** C3: the early-stop conditions of the flood-fill loop never fire. From
    the initial state on, every configuration the loop goes through has
    [white = 0] and [black = 1], so the loop condition holds exactly when
    the queue is non-empty; whenever the loop ends, it ends with an empty
    queue; and on a well-formed image with a seed in the grid it does end. *)
Theorem BFS_early_stop_inert image start bp st0 :
  BFS_init start image bp = Done st0 ->
  (forall st visited, BFS_reach image (st0, []) (st, visited) ->
     white st = 0 /\ black st = 1 /\ (BFS_continue st = true <-> queue st <> [])) /\
  (forall fuel st visited, BFS_loop fuel image st0 [] = Done (st, visited) ->
     queue st = [] /\ white st = 0 /\ black st = 1) /\
  (Image_wf image -> in_grid image start ->
   exists st visited, BFS_loop (cell_count image) image st0 [] = Done (st, visited)).
Proof.
  intros Hinit. destruct (BFS_init_counters _ _ _ _ Hinit) as [Hw0 Hb0].
  split; [| split].
  - intros st visited Hreach.
    apply BFS_reach_counters in Hreach as [Hw Hb]. simpl in Hw, Hb.
    rewrite Hw0 in Hw. rewrite Hb0 in Hb. split; [done |]. split; [done |].
    rewrite (BFS_continue_inert st Hw Hb), negb_true_iff, bool_decide_eq_false. done.
  - intros fuel st visited Hloop. by eapply BFS_loop_exit.
  - intros Hwf Hstart.
    destruct (BFS_run_spec image start bp Hwf Hstart)
      as (st0' & st & visited & Hinit' & Hrun & _).
    unfold BFS_run in Hrun. rewrite Hinit in Hrun. simpl in Hrun. by exists st, visited.
Qed.

Lemma BFS_early_stop_inert_witness :
  exists st0,
    BFS_init (mkPixel 0 0) image_2x2 [] = Done st0 /\
    forall fuel st visited, BFS_loop fuel image_2x2 st0 [] = Done (st, visited) ->
      queue st = [] /\ white st = 0 /\ black st = 1.
Proof.
  eexists. split; [reflexivity |].
  apply (BFS_early_stop_inert image_2x2 (mkPixel 0 0) [] _ eq_refl).
Defined.

(** C8: on a well-formed image and for a seed in the grid, the flood fill
    pushes every pixel at most once. In every configuration of the loop the
    pixels pushed so far (popped ones, then the queue) are pairwise distinct
    and all marked in [used], and there are at most rows * columns of them;
    the loop ends with an empty queue within rows * columns pops. *)
Theorem BFS_pushes_once image start bp :
  Image_wf image -> in_grid image start ->
  exists st0 st visited,
    BFS_init start image bp = Done st0 /\
    (forall st' visited', BFS_reach image (st0, []) (st', visited') ->
       NoDup (visited' ++ queue st') /\
       Forall (marked (used st')) (visited' ++ queue st') /\
       (length visited' + length (queue st') <= cell_count image)%nat) /\
    BFS_run start image bp = Done (st, visited) /\
    queue st = [] /\
    NoDup visited /\
    (length visited <= cell_count image)%nat.
Proof.
  intros Hwf Hstart.
  destruct (BFS_run_spec image start bp Hwf Hstart)
    as (st0 & st & visited & Hinit & Hrun & Hq & Hinv & Hreach & _).
  destruct (BFS_init_inv image start bp Hwf Hstart) as (st0' & Hinit' & _ & Hinv0).
  rewrite Hinit in Hinit'. injection Hinit' as <-.
  exists st0, st, visited. split; [done |]. split.
  { intros st' visited' Hreach'.
    destruct (BFS_reach_inv image bp (st0, []) st' visited' Hwf Hinv0 Hreach') as [Hinv' _].
    split; [apply (inv_nodup _ _ _ _ Hinv') |]. split; [| by eapply BFS_inv_bound].
    apply Forall_forall. intros p Hp. apply (inv_marked _ _ _ _ Hinv'); [| done].
    pose proof (inv_grid _ _ _ _ Hinv') as Hgrid. eapply Forall_forall in Hgrid; eauto. }
  split; [done |]. split; [done |].
  pose proof (inv_nodup _ _ _ _ Hinv) as Hnd. pose proof (BFS_inv_bound _ _ _ _ Hinv) as Hb.
  rewrite Hq in Hnd, Hb. rewrite app_nil_r in Hnd. simpl in Hb. split; [done | lia].
Qed.

Lemma BFS_pushes_once_witness :
  exists st visited,
    BFS_run (mkPixel 0 0) image_2x2 [] = Done (st, visited) /\
    NoDup visited /\ (length visited <= cell_count image_2x2)%nat.
Proof.
  destruct (BFS_pushes_once image_2x2 (mkPixel 0 0) []
              Image_wf_image_2x2 in_grid_image_2x2_origin)
    as (st0 & st & visited & _ & _ & Hrun & _ & Hnd & Hlen).
  by exists st, visited.
Defined.

Lemma BFS_output_spec image start bp :
  Image_wf image -> in_grid image start ->
  exists st visited,
    BFS_run start image bp = Done (st, visited) /\
    [start] `prefix_of` visited /\
    Forall (in_grid image) visited /\
    (forall p ns n, p ∈ visited -> GetNeighbours_pixel image p = Done ns ->
                    n ∈ ns -> n ∈ visited) /\
    BFS start image bp = Done (bp ++ filter (fun p => is_stroke image p) visited).
Proof.
  intros Hwf Hstart.
  destruct (BFS_run_spec image start bp Hwf Hstart)
    as (st0 & st & visited & Hinit & Hrun & Hq & Hinv & Hreach & Hpre).
  destruct Hinv as [_ _ _ _ Hgrid _ Hclosed Hout]. rewrite Hq, app_nil_r in *.
  exists st, visited. split; [done |]. split; [done |]. split; [done |]. split.
  - intros p ns n Hp Hns Hn. exact (Hclosed p ns Hp Hns n Hn).
  - unfold BFS. rewrite Hrun. simpl. by rewrite Hout.
Qed.

(** C2, as stated, fails: started on the left ink sample of [image_gap],
    the flood fill pushes and pops the blank pixel (0,1), which is neither
    the seed nor a stroke pixel, and goes on to collect the ink sample
    (0,2), which no stroke path connects to the seed. *)
Lemma BFS_crosses_background :
  exists st,
    BFS_run (mkPixel 0 0) image_gap [] = Done (st, [mkPixel 0 0; mkPixel 0 1; mkPixel 0 2]) /\
    is_stroke image_gap (mkPixel 0 0) = true /\
    mkPixel 0 1 <> mkPixel 0 0 /\
    IsWhite_pixel image_gap (mkPixel 0 1) = Done true /\
    is_stroke image_gap (mkPixel 0 1) = false /\
    BFS (mkPixel 0 0) image_gap [] = Done [mkPixel 0 0; mkPixel 0 2].
Proof.
  eexists. split; [vm_compute; reflexivity |]. repeat split; done.
Qed.

(** ** Deduplication *)

Section marking.
(** One pass of conditional marking over a list of indices. *)
Variable hit : nat -> bool.

Lemma mark_pass_length (js : list nat) (bad : list bool) :
  length (foldl (fun bad j => if hit j then <[j := true]> bad else bad) bad js)
  = length bad.
Proof.
  revert bad. induction js as [|j js IH]; intros bad; simpl; [done |].
  rewrite IH. destruct (hit j); [apply length_insert | done].
Qed.

Lemma mark_pass_lookup (js : list nat) (bad : list bool) (k : nat) :
  foldl (fun bad j => if hit j then <[j := true]> bad else bad) bad js !! k = Some true
  <-> bad !! k = Some true \/ ((k < length bad)%nat /\ k ∈ js /\ hit k = true).
Proof.
  revert bad. induction js as [|j js IH]; intros bad; simpl.
  - split; [by left |]. intros [? | (_ & Hin & _)]; [done | by apply elem_of_nil in Hin].
  - rewrite IH. destruct (hit j) eqn:Hj.
    + rewrite length_insert, list_lookup_insert, elem_of_cons.
      case_decide as Hdec.
      * destruct Hdec as [-> Hlt]. split; [intros _ | by left].
        right. split; [done |]. split; [by left | done].
      * split.
        -- intros [? | (? & ? & ?)]; [by left |]. right. split; [done |].
           split; [by right | done].
        -- intros [? | (Hlt & [-> | Hin] & Hk)]; [by left | |].
           ++ exfalso. apply Hdec. done.
           ++ right. done.
    + rewrite elem_of_cons. split.
      * intros [? | (? & ? & ?)]; [by left |]. right. split; [done |].
        split; [by right | done].
      * intros [? | (Hlt & [-> | Hin] & Hk)]; [by left | congruence |]. by right.
Qed.
End marking.

Lemma mark_after_length found i bad : length (mark_after found i bad) = length bad.
Proof. unfold mark_after. apply mark_pass_length. Qed.

Lemma mark_after_lookup found i bad k :
  mark_after found i bad !! k = Some true <->
  bad !! k = Some true \/
  ((k < length bad)%nat /\ (i < k < length found)%nat /\
   AreSimilar (found !!! i) (found !!! k) = true).
Proof.
  unfold mark_after.
  rewrite (mark_pass_lookup (fun j => AreSimilar (found !!! i) (found !!! j))).
  rewrite elem_of_seq. split; (intros [? | (? & ? & ?)]; [by left | right]);
    (split; [done |]); (split; [lia | done]).
Qed.

Lemma mark_rows_length found (rows : list nat) bad :
  length (foldl (fun bad i => mark_after found i bad) bad rows) = length bad.
Proof.
  revert bad. induction rows as [|i rows IH]; intros bad; simpl; [done |].
  by rewrite IH, mark_after_length.
Qed.

Lemma mark_rows_lookup found (rows : list nat) bad k :
  foldl (fun bad i => mark_after found i bad) bad rows !! k = Some true <->
  bad !! k = Some true \/
  ((k < length bad)%nat /\
   exists i, i ∈ rows /\ (i < k < length found)%nat /\
             AreSimilar (found !!! i) (found !!! k) = true).
Proof.
  revert bad. induction rows as [|i rows IH]; intros bad; simpl.
  - split; [by left |].
    intros [? | (_ & i & Hin & _)]; [done | by apply elem_of_nil in Hin].
  - rewrite IH, mark_after_length, mark_after_lookup. split.
    + intros [[? | (? & ? & ?)] | (? & i' & ? & ? & ?)].
      * by left.
      * right. split; [done |]. exists i. split; [by left | done].
      * right. split; [done |]. exists i'. split; [by right | done].
    + intros [? | (? & i' & [-> | ?]%elem_of_cons & ? & ?)].
      * left. by left.
      * left. right. done.
      * right. split; [done |]. by exists i'.
Qed.

Lemma mark_bad_length found : length (mark_bad found) = length found.
Proof. unfold mark_bad. by rewrite mark_rows_length, length_replicate. Qed.

Lemma mark_bad_lookup found k :
  mark_bad found !! k = Some true <->
  exists i, (i < k < length found)%nat /\ AreSimilar (found !!! i) (found !!! k) = true.
Proof.
  unfold mark_bad. rewrite mark_rows_lookup, length_replicate. split.
  - intros [Hk | (_ & i & _ & ? & ?)]; [| by exists i].
    apply lookup_replicate in Hk as [? _]. done.
  - intros (i & Hik & Hsim). right. split; [lia |]. exists i.
    split; [apply elem_of_seq; lia | done].
Qed.

Lemma mark_bad_near found k :
  Forall grid_pixel found ->
  mark_bad found !! k = Some true <->
  exists i a b, (i < k)%nat /\ found !! i = Some a /\ found !! k = Some b /\ near a b.
Proof.
  intros Hgrid. rewrite mark_bad_lookup. split.
  - intros (i & [Hik Hk] & Hsim).
    destruct (lookup_lt_is_Some_2 found i) as [a Ha]; [lia |].
    destruct (lookup_lt_is_Some_2 found k) as [b Hb]; [lia |].
    rewrite (list_lookup_total_correct _ _ _ Ha), (list_lookup_total_correct _ _ _ Hb) in Hsim.
    exists i, a, b. split; [done |]. split; [done |]. split; [done |].
    apply AreSimilar_near; [| | done].
    + eapply Forall_lookup_1 in Ha; eauto.
    + eapply Forall_lookup_1 in Hb; eauto.
  - intros (i & a & b & Hik & Ha & Hb & Hnear).
    exists i. split; [apply lookup_lt_Some in Hb; lia |].
    rewrite (list_lookup_total_correct _ _ _ Ha), (list_lookup_total_correct _ _ _ Hb).
    apply AreSimilar_near; [| | done].
    + eapply Forall_lookup_1 in Ha; eauto.
    + eapply Forall_lookup_1 in Hb; eauto.
Qed.

Lemma count_not_bad_fold (flags : list bool) (count : Z) :
  0 <= count -> count + Z.of_nat (length flags) <= INT_MAX ->
  foldl (fun count (is_bad : bool) => if is_bad then count else int_add count 1) count flags
  = count + Z.of_nat (length (filter (fun is_bad => is_bad = false) flags)).
Proof.
  revert count. induction flags as [|is_bad flags IH]; intros count H0 Hmax; simpl.
  - lia.
  - rewrite filter_cons. simpl length in Hmax. destruct is_bad; simpl.
    + rewrite IH by lia. done.
    + unfold int_add. rewrite wrap_int_id by (unfold is_int, INT_MIN, INT_MAX in *; lia).
      rewrite IH by lia. simpl length. lia.
Qed.

Lemma intersections_count_spec found :
  Z.of_nat (length found) <= INT_MAX ->
  intersections_count found
  = Z.of_nat (length (filter (fun is_bad => is_bad = false) (mark_bad found))).
Proof.
  intros Hlen. unfold intersections_count, count_not_bad.
  rewrite count_not_bad_fold; [lia | lia |]. rewrite mark_bad_length. lia.
Qed.

(** C7: deduplication marks candidate j exactly when some candidate at an
    earlier index is near it, so a candidate is never marked because of a
    later one; the flag vector has one flag per candidate; the count is the
    number of unmarked candidates, and it is what [main] prints. *)
Theorem dedup_marks_later_near found :
  Forall grid_pixel found -> Z.of_nat (length found) <= INT_MAX ->
  length (mark_bad found) = length found /\
  (forall j, mark_bad found !! j = Some true <->
     exists i a b, (i < j)%nat /\ found !! i = Some a /\ found !! j = Some b /\ near a b) /\
  intersections_count found
    = Z.of_nat (length (filter (fun is_bad => is_bad = false) (mark_bad found))) /\
  (forall argc decoded, 2 <= argc -> scan (Image_of_Mat decoded) = Done found ->
     main argc decoded
     = Done (pretty (Z.of_nat (length (filter (fun is_bad => is_bad = false)
                                              (mark_bad found)))) +:+ endl, 0)).
Proof.
  intros Hgrid Hlen. split; [apply mark_bad_length |].
  split; [intros j; by apply mark_bad_near |].
  split; [by apply intersections_count_spec |].
  intros argc decoded Hargc Hscan. unfold main.
  destruct (Z.ltb_spec argc 2); [lia |]. rewrite Hscan. simpl.
  by rewrite intersections_count_spec.
Qed.

Lemma dedup_marks_later_near_witness :
  let found := [mkPixel 0 0; mkPixel 3 3; mkPixel 6 6; mkPixel 20 20] in
  length (mark_bad found) = length found /\
  intersections_count found
    = Z.of_nat (length (filter (fun is_bad => is_bad = false) (mark_bad found))).
Proof.
  simpl.
  destruct (dedup_marks_later_near [mkPixel 0 0; mkPixel 3 3; mkPixel 6 6; mkPixel 20 20])
    as (Hlen & _ & Hcount & _).
  - repeat constructor; unfold INT_MAX; simpl; lia.
  - unfold INT_MAX. simpl. lia.
  - split; [exact Hlen | exact Hcount].
Defined.

(** C10: whether candidate j is marked depends only on the candidates
    before it: it is marked exactly when some earlier candidate is near it,
    and the flag of that earlier candidate plays no part - an earlier near
    candidate that is itself marked marks j all the same. In a chain a near
    b, b near c, a not near c, both b and c end up marked and the count
    is 1. *)
Theorem dedup_chain_suppression :
  (forall found j,
     Forall grid_pixel found ->
     mark_bad found !! j = Some true <->
     exists i a b, (i < j)%nat /\ found !! i = Some a /\ found !! j = Some b /\ near a b) /\
  (forall found i j a b,
     Forall grid_pixel found -> (i < j)%nat ->
     found !! i = Some a -> found !! j = Some b -> near a b ->
     mark_bad found !! i = Some true -> mark_bad found !! j = Some true) /\
  (forall a b c,
     grid_pixel a -> grid_pixel b -> grid_pixel c ->
     near a b -> near b c -> ~ near a c ->
     mark_bad [a; b; c] = [false; true; true] /\ intersections_count [a; b; c] = 1).
Proof.
  split; [| split].
  - intros found j Hgrid. by apply mark_bad_near.
  - intros found i j a b Hgrid Hij Ha Hb Hnear _.
    apply mark_bad_near; [done |]. by exists i, a, b.
  - intros a b c Ha Hb Hc Hab Hbc Hac.
    apply AreSimilar_near in Hab; [| done..]. apply AreSimilar_near in Hbc; [| done..].
    assert (AreSimilar a c = false) as Hac'.
    { apply not_true_iff_false. intros Hs. apply Hac. by apply AreSimilar_near. }
    assert (mark_bad [a; b; c] = [false; true; true]) as Hmarks.
    { unfold mark_bad, mark_after. simpl. rewrite Hab, Hac', Hbc. reflexivity. }
    split; [done |]. unfold intersections_count. rewrite Hmarks. reflexivity.
Qed.

Lemma dedup_chain_suppression_witness :
  mark_bad [mkPixel 0 0; mkPixel 3 3; mkPixel 6 6] = [false; true; true] /\
  intersections_count [mkPixel 0 0; mkPixel 3 3; mkPixel 6 6] = 1.
Proof.
  apply (proj2 (proj2 dedup_chain_suppression));
    try (unfold grid_pixel, INT_MAX; simpl; lia);
    unfold near; simpl; lia.
Defined.

(** ** The extents of an empty grid *)

(** C6, as stated, fails: on the image built from a mat with zero rows,
    [GetColumns] reads the first row of an empty vector; it does not
    return 0. *)
Lemma GetColumns_empty_grid_faults :
  let image := Image_of_Mat (mkMat 0 0 (fun _ _ => 0)) in
  GetRows image = 0 /\
  GetColumns image = Fault (BadIndex 0 0) /\
  GetColumns image <> Done 0.
Proof. simpl. split; [reflexivity |]. split; [reflexivity | discriminate]. Qed.

(** C6 (amended): [GetColumns] returns the size of the first row whenever
    the grid has at least one row; on a grid with zero rows it reads a row
    that does not exist and yields no value. The scan only evaluates it
    after [i < GetRows()] has held, so [main] never reaches that case: on a
    zero-row grid the scan ends at once with no candidates. *)
Theorem GetColumns_first_row image :
  (0 < GetRows image ->
   exists r, is_white_ image !! 0%nat = Some r /\
             GetColumns image = Done (Z.of_nat (length r))) /\
  (GetRows image = 0 ->
   GetColumns image = Fault (BadIndex 0 0) /\ scan image = Done []).
Proof.
  unfold GetRows, GetColumns, scan, vec_at. simpl.
  destruct (is_white_ image) as [|r rows] eqn:Himg; simpl.
  - split; [lia |]. intros _. split; [done |]. unfold int_lt_size, GetRows.
    rewrite Himg. done.
  - split; [| lia]. intros _. by exists r.
Qed.

Lemma GetColumns_first_row_witness :
  (exists r, is_white_ image_2x2 !! 0%nat = Some r /\
             GetColumns image_2x2 = Done (Z.of_nat (length r))) /\
  GetColumns (mkImage []) = Fault (BadIndex 0 0) /\ scan (mkImage []) = Done [].
Proof.
  split.
  - apply (proj1 (GetColumns_first_row image_2x2)). unfold GetRows. simpl. lia.
  - apply (proj2 (GetColumns_first_row (mkImage []))). reflexivity.
Defined.

(** ** main on an empty grid *)

(** C9: when the decoded mat has zero rows, the outer scan loop runs zero
    times (it ends even with no iteration budget), no candidate is
    recorded, and [main] prints 0 and a newline and returns 0. *)
Theorem main_empty_grid argc decoded :
  2 <= argc -> mat_rows decoded = 0 ->
  (forall fuel, scan_rows fuel (Image_of_Mat decoded) 0 [] = Done []) /\
  scan (Image_of_Mat decoded) = Done [] /\
  main argc decoded = Done ("0" +:+ endl, 0).
Proof.
  intros Hargc Hrows.
  assert (forall fuel, scan_rows fuel (Image_of_Mat decoded) 0 [] = Done []) as Hscan.
  { intros fuel. unfold Image_of_Mat. rewrite Hrows. by destruct fuel. }
  split; [done |]. split; [apply Hscan |].
  unfold main. destruct (Z.ltb_spec argc 2); [lia |].
  unfold scan. rewrite Hscan. reflexivity.
Qed.

Lemma main_empty_grid_witness :
  main 2 (mkMat 0 0 (fun _ _ => 0)) = Done ("0" +:+ endl, 0).
Proof.
  apply (main_empty_grid 2 (mkMat 0 0 (fun _ _ => 0))); [lia | reflexivity].
Defined.

(** ** The scan after a detection *)

(** C5 does not hold of the code. On the 11 by 11 page [mat_three_dots] the
    sample at (0,0) is white and is classified as an intersection, so the
    row cursor becomes 20 inside the column loop; the loop goes on with
    column 5 (5 < 11) and evaluates [IsWhite(20, 5)], an access to row 20 of
    a vector of 11 rows. *)
Theorem scan_reads_past_last_row :
  let image := Image_of_Mat mat_three_dots in
  GetRows image = 11 /\ GetColumns image = Done 11 /\
  IsWhite image 0 0 = Done true /\
  IsIntersection (mkPixel 0 0) image = Done true /\
  int_add 0 20 = 20 /\ int_add 0 STEP = 5 /\
  IsWhite image 20 5 = Fault (BadIndex 11 20) /\
  scan image = Fault (BadIndex 11 20) /\
  main 2 mat_three_dots = Fault (BadIndex 11 20).
Proof.
  simpl. repeat split; vm_compute; reflexivity.
Qed.

(** ** The scan never exhausts its budget *)

Lemma to_size_t_negative z : is_int z -> z < 0 -> INT_MAX < to_size_t z.
Proof.
  unfold is_int, INT_MIN, INT_MAX, to_size_t. intros Hz Hneg.
  rewrite <- (Z_mod_plus_full z 1). rewrite Z.mod_small by lia. lia.
Qed.

Lemma int_lt_size_true a n :
  is_int a -> n <= INT_MAX -> int_lt_size a n = true -> 0 <= a < n.
Proof.
  intros Ha Hn Hlt. unfold int_lt_size in Hlt. apply Z.ltb_lt in Hlt.
  destruct (Z.lt_ge_cases a 0) as [Hneg | Hpos].
  - pose proof (to_size_t_negative a Ha Hneg). lia.
  - rewrite to_size_t_id in Hlt by (unfold is_int in Ha; lia). lia.
Qed.

Lemma IsWhite_Done_in_grid image i j w :
  Image_wf image -> IsWhite image i j = Done w -> in_grid image (mkPixel i j).
Proof.
  intros Hwf. pose proof (Image_wf_shape image Hwf) as [_ Hrows].
  unfold IsWhite, grid_at.
  destruct (vec_at (is_white_ image) i) as [r | |] eqn:Hr; simpl; try done.
  intros Hw. apply vec_at_Done in Hr as [Hi Hr]. apply vec_at_Done in Hw as [Hj Hw].
  assert (length r = column_count image) as Hlen.
  { eapply Forall_lookup_1 in Hrows; [| exact Hr]. exact Hrows. }
  apply lookup_lt_Some in Hr, Hw. unfold in_grid, GetRows. simpl. lia.
Qed.

Lemma IsIntersection_total image p :
  Image_wf image -> in_grid image p -> exists b, IsIntersection p image = Done b.
Proof.
  intros Hwf Hp.
  destruct (BFS_output_spec image p [] Hwf Hp) as (st & visited & _ & _ & _ & _ & Hout).
  unfold IsIntersection. rewrite Hout. by eexists.
Qed.

Lemma Image_wf_columns image : Image_wf image -> Z.of_nat (column_count image) <= INT_MAX.
Proof.
  intros (_ & c & Hc & Hrows). unfold column_count.
  destruct (is_white_ image) as [|r rows]; simpl; [unfold INT_MAX; lia |].
  apply Forall_cons in Hrows as [-> _]. done.
Qed.

Lemma GetColumns_cases image :
  GetColumns image = Done (Z.of_nat (column_count image)) \/
  GetColumns image = Fault (BadIndex 0 0).
Proof.
  unfold GetColumns, column_count, vec_at. simpl.
  destruct (is_white_ image); simpl; [by right | by left].
Qed.

Lemma IsWhite_not_OutOfFuel image i j : IsWhite image i j <> OutOfFuel.
Proof.
  unfold IsWhite, grid_at, vec_at.
  repeat (case_match; simpl; try done).
Qed.

Lemma scan_columns_budget image i0 :
  Image_wf image ->
  forall fuel i j found,
    is_int i -> is_int j ->
    (j < 0 \/ Z.of_nat (column_count image) - j <= Z.of_nat fuel) ->
    (i0 <= i \/ i <= INT_MIN + 19) ->
    match scan_columns fuel image i j found with
    | Done r => is_int r.1 /\ (i0 <= r.1 \/ r.1 <= INT_MIN + 19)
    | Fault _ => True
    | OutOfFuel => False
    end.
Proof.
  intros Hwf. pose proof (Image_wf_columns image Hwf) as Hcols.
  induction fuel as [|fuel IH]; intros i j found Hi Hj Hfuel Hi0;
    simpl; (destruct (GetColumns_cases image) as [-> | ->]; simpl; [| done]);
    destruct (int_lt_size j _) eqn:Hlt; simpl; try done;
    apply int_lt_size_true in Hlt; try done.
  - lia.
  - destruct (IsWhite image i j) as [w | |] eqn:Hw; simpl; try done.
    2: { by apply IsWhite_not_OutOfFuel in Hw. }
    assert (is_int (int_add j STEP) /\
            (int_add j STEP < 0 \/
             Z.of_nat (column_count image) - int_add j STEP <= Z.of_nat fuel)) as [Hj' Hfuel'].
    { split; [apply wrap_int_is_int |]. unfold int_add, wrap_int, STEP.
      unfold is_int, INT_MIN, INT_MAX in *.
      destruct (Z.le_gt_cases (j + 5) 2147483647).
      - right. rewrite Z.mod_small by lia. lia.
      - left. rewrite <- (Z_mod_plus_full _ (-1)). rewrite Z.mod_small by lia. lia. }
    destruct w; simpl; [| by apply IH].
    pose proof (IsWhite_Done_in_grid image i j true Hwf Hw) as Hgrid.
    destruct (IsIntersection_total image (mkPixel i j) Hwf Hgrid) as [b ->]. simpl.
    destruct b; simpl; [| by apply IH].
    apply IH; try done; [apply wrap_int_is_int |].
    destruct Hgrid as [[Hi1 Hi2] _]. simpl in Hi1, Hi2.
    destruct Hwf as [HR _]. unfold int_add, wrap_int, INT_MIN, INT_MAX in *.
    destruct (Z.le_gt_cases (i + 20) 2147483647).
    + left. rewrite Z.mod_small by lia. lia.
    + right. rewrite <- (Z_mod_plus_full _ (-1)). rewrite Z.mod_small by lia. lia.
Qed.

Lemma scan_rows_budget image :
  Image_wf image ->
  forall fuel i found,
    is_int i ->
    (i < 0 \/ GetRows image - i <= Z.of_nat fuel) ->
    scan_rows fuel image i found <> OutOfFuel.
Proof.
  intros Hwf. pose proof Hwf as [HR _].
  induction fuel as [|fuel IH]; intros i found Hi Hfuel; simpl;
    destruct (int_lt_size i (GetRows image)) eqn:Hlt; simpl; try done;
    apply int_lt_size_true in Hlt; try done.
  - lia.
  - pose proof (scan_columns_budget image i Hwf (column_count image) i 0 found Hi) as Hcols.
    destruct (scan_columns (column_count image) image i 0 found) as [r | |]; simpl; try done.
    + destruct Hcols as [Hr1 Hr2];
        [unfold is_int, INT_MIN, INT_MAX; lia | right; lia | left; lia |].
      apply IH; [apply wrap_int_is_int |].
      unfold int_add, wrap_int, STEP. unfold is_int, INT_MIN, INT_MAX in *.
      destruct (Z.le_gt_cases (r.1 + 5) 2147483647).
      * rewrite Z.mod_small by lia. lia.
      * left. rewrite <- (Z_mod_plus_full _ (-1)). rewrite Z.mod_small by lia. lia.
    + exfalso. apply Hcols; [unfold is_int, INT_MIN, INT_MAX; lia | right; lia | left; lia].
Qed.

(** The budgets handed to the two scan loops are always enough. *)
Lemma scan_budget image : Image_wf image -> scan image <> OutOfFuel.
Proof.
  intros Hwf. apply scan_rows_budget; [done | unfold is_int, INT_MIN, INT_MAX; lia |].
  right. unfold GetRows. lia.
Qed.

(** * Further properties *)

(** ** Bounds queries *)

(** X1: [IsCorrect] never reads outside the grid: for int arguments it
    returns whether the position is in the grid, and on a grid without rows
    it returns false without touching the first row. *)
Theorem IsCorrect_decides_in_grid image px py :
  is_int px -> is_int py ->
  IsCorrect image px py = Done (bool_decide (in_grid image (mkPixel px py))) /\
  (GetRows image = 0 -> IsCorrect image px py = Done false).
Proof.
  intros Hx Hy. split; [by apply IsCorrect_spec |].
  intros Hrows. rewrite IsCorrect_spec by done. f_equal.
  apply bool_decide_eq_false. unfold in_grid. simpl. lia.
Qed.

Lemma IsCorrect_decides_in_grid_witness :
  IsCorrect image_2x2 1 1 = Done (bool_decide (in_grid image_2x2 (mkPixel 1 1))).
Proof.
  apply (IsCorrect_decides_in_grid image_2x2 1 1);
    unfold is_int, INT_MIN, INT_MAX; lia.
Defined.

Lemma GetNeighbours_filter image p :
  Image_wf image -> in_grid image p ->
  GetNeighbours_pixel image p = Done (filter (in_grid image) (axis_neighbours p)).
Proof.
  intros Hwf Hp. pose proof (Image_wf_grid_pixel image p Hwf Hp) as [Hx Hy].
  pose proof Hwf as [HR _]. pose proof (Image_wf_columns image Hwf) as HC.
  destruct Hp as [Hpx Hpy].
  unfold GetNeighbours_pixel, GetNeighbours, int_add, int_sub, axis_neighbours.
  rewrite !wrap_int_id by (unfold is_int, INT_MIN, INT_MAX in *; lia).
  rewrite !IsCorrect_spec by (unfold is_int, INT_MIN, INT_MAX in *; lia).
  simpl. rewrite !filter_cons, filter_nil.
  repeat case_bool_decide; repeat case_decide; try done.
Qed.

(** X2: for a pixel of the grid, [GetNeighbours] returns exactly those of
    (x+1,y), (x,y+1), (x-1,y), (x,y-1) that lie in the grid, in this
    order. *)
Theorem GetNeighbours_in_grid_axis_neighbours image p :
  Image_wf image -> in_grid image p ->
  GetNeighbours_pixel image p = Done (filter (in_grid image) (axis_neighbours p)).
Proof. apply GetNeighbours_filter. Qed.

Lemma GetNeighbours_in_grid_axis_neighbours_witness :
  GetNeighbours_pixel image_2x2 (mkPixel 0 0)
  = Done (filter (in_grid image_2x2) (axis_neighbours (mkPixel 0 0))).
Proof.
  apply (GetNeighbours_in_grid_axis_neighbours image_2x2 (mkPixel 0 0)).
  - split; [unfold GetRows, INT_MAX; simpl; lia |].
    exists 2%nat. split; [unfold INT_MAX; lia |]. repeat constructor.
  - unfold in_grid, GetRows, column_count. simpl. lia.
Defined.

(** ** The constructor *)

Lemma Image_of_Mat_lookup decoded i j :
  0 <= i < mat_rows decoded -> 0 <= j < mat_cols decoded ->
  IsWhite (Image_of_Mat decoded) i j = Done (mat_at decoded i j =? 0).
Proof.
  intros Hi Hj. unfold IsWhite, grid_at, Image_of_Mat. simpl.
  erewrite (proj2 (vec_at_Done _ i _)).
  2: { split; [lia |]. rewrite list_lookup_fmap, lookup_seqZ_lt by lia. reflexivity. }
  simpl. apply vec_at_Done. split; [lia |].
  rewrite list_lookup_fmap, lookup_seqZ_lt by lia. simpl.
  unfold IsWhite_color. do 3 f_equal; lia.
Qed.

(** X3: the image built from a mat has the mat's extents, and [IsWhite] at
    a position of the mat is true exactly when the sample there is 0. *)
Theorem Image_of_Mat_reflects_samples decoded :
  0 <= mat_rows decoded -> 0 <= mat_cols decoded ->
  GetRows (Image_of_Mat decoded) = mat_rows decoded /\
  (0 < mat_rows decoded -> GetColumns (Image_of_Mat decoded) = Done (mat_cols decoded)) /\
  (forall i j, 0 <= i < mat_rows decoded -> 0 <= j < mat_cols decoded ->
     IsWhite (Image_of_Mat decoded) i j = Done (mat_at decoded i j =? 0)).
Proof.
  intros HR HC. split; [| split].
  - unfold GetRows, Image_of_Mat. simpl. rewrite length_fmap, length_seqZ. lia.
  - intros Hpos. unfold GetColumns, Image_of_Mat. simpl.
    erewrite (proj2 (vec_at_Done _ 0 _)).
    2: { split; [lia |]. rewrite list_lookup_fmap, lookup_seqZ_lt by lia. reflexivity. }
    simpl. rewrite length_fmap, length_seqZ. unfold mret, outcome_ret. f_equal. lia.
  - intros i j. apply Image_of_Mat_lookup.
Qed.

Lemma Image_of_Mat_reflects_samples_witness :
  GetRows (Image_of_Mat mat_ladder) = 16 /\
  IsWhite (Image_of_Mat mat_ladder) 5 0 = Done (mat_at mat_ladder 5 0 =? 0).
Proof.
  destruct (Image_of_Mat_reflects_samples mat_ladder) as (Hrows & _ & Hcell);
    [simpl; lia.. |].
  split; [exact Hrows |]. apply Hcell; simpl; lia.
Defined.

(** X4: on a well-formed image [IsWhite(i, j)] yields a value exactly for
    the positions of the grid; any other position is an access outside a
    vector. *)
Theorem IsWhite_defined_iff_in_grid image i j :
  Image_wf image ->
  ((exists w, IsWhite image i j = Done w) <-> in_grid image (mkPixel i j)) /\
  (~ in_grid image (mkPixel i j) -> exists size index, IsWhite image i j = Fault (BadIndex size index)).
Proof.
  intros Hwf.
  assert ((exists w, IsWhite image i j = Done w) <-> in_grid image (mkPixel i j)) as Hiff.
  { split.
    - intros [w Hw]. by eapply IsWhite_Done_in_grid.
    - intros Hin. by apply (IsWhite_in_grid image (mkPixel i j)). }
  split; [done |]. intros Hout.
  destruct (IsWhite image i j) as [w | [size index |] |] eqn:Hw.
  - exfalso. apply Hout, Hiff. by exists w.
  - by exists size, index.
  - exfalso. unfold IsWhite, grid_at, vec_at in Hw. repeat (case_match; simpl in *; try done).
  - exfalso. by apply IsWhite_not_OutOfFuel in Hw.
Qed.

Lemma IsWhite_defined_iff_in_grid_witness :
  (exists w, IsWhite image_2x2 1 0 = Done w) <-> in_grid image_2x2 (mkPixel 1 0).
Proof.
  apply (IsWhite_defined_iff_in_grid image_2x2 1 0).
  split; [unfold GetRows, INT_MAX; simpl; lia |].
  exists 2%nat. split; [unfold INT_MAX; lia |]. repeat constructor.
Defined.

(** ** First extremal pixel *)

Lemma search_min_fold (key : Pixel -> Z) pixels b0 k0 :
  let r := foldl (search_step (fun k p => key p <? k) key) (b0, k0) pixels in
  (Forall (fun p => k0 <= key p) pixels /\ r = (b0, k0)) \/
  (exists i, pixels !! i = Some r.1 /\ key r.1 = r.2 /\ r.2 < k0 /\
             Forall (fun p => r.2 <= key p) pixels /\
             forall i' q, (i' < i)%nat -> pixels !! i' = Some q -> r.2 < key q).
Proof.
  revert b0 k0. induction pixels as [|p pixels IH]; intros b0 k0; simpl.
  - left. done.
  - destruct (Z.ltb_spec (key p) k0) as [Hlt | Hge].
    + right. destruct (IH p (key p)) as [[Hall Hr] | (i & Hi & Hkey & Hlt' & Hall & Hfirst)];
        simpl in *.
      * rewrite Hr. simpl. exists 0%nat. split; [done |]. split; [done |]. split; [done |].
        split; [constructor; [lia | done] |]. intros i' q Hi'. lia.
      * exists (S i). split; [done |]. split; [done |]. split; [lia |].
        split; [constructor; [lia | done] |].
        intros [|i'] q Hi' Hq; simpl in Hq; [injection Hq as <-; lia |].
        apply (Hfirst i' q); [lia | done].
    + destruct (IH b0 k0) as [[Hall Hr] | (i & Hi & Hkey & Hlt' & Hall & Hfirst)];
        simpl in *.
      * left. split; [by constructor | done].
      * right. exists (S i). split; [done |]. split; [done |]. split; [done |].
        split; [constructor; [lia | done] |].
        intros [|i'] q Hi' Hq; simpl in Hq; [injection Hq as <-; lia |].
        apply (Hfirst i' q); [lia | done].
Qed.

Lemma search_max_fold (key : Pixel -> Z) pixels b0 k0 :
  let r := foldl (search_step (fun k p => k <? key p) key) (b0, k0) pixels in
  (Forall (fun p => key p <= k0) pixels /\ r = (b0, k0)) \/
  (exists i, pixels !! i = Some r.1 /\ key r.1 = r.2 /\ k0 < r.2 /\
             Forall (fun p => key p <= r.2) pixels /\
             forall i' q, (i' < i)%nat -> pixels !! i' = Some q -> key q < r.2).
Proof.
  revert b0 k0. induction pixels as [|p pixels IH]; intros b0 k0; simpl.
  - left. done.
  - destruct (Z.ltb_spec k0 (key p)) as [Hlt | Hge].
    + right. destruct (IH p (key p)) as [[Hall Hr] | (i & Hi & Hkey & Hlt' & Hall & Hfirst)];
        simpl in *.
      * rewrite Hr. simpl. exists 0%nat. split; [done |]. split; [done |]. split; [done |].
        split; [constructor; [lia | done] |]. intros i' q Hi'. lia.
      * exists (S i). split; [done |]. split; [done |]. split; [lia |].
        split; [constructor; [lia | done] |].
        intros [|i'] q Hi' Hq; simpl in Hq; [injection Hq as <-; lia |].
        apply (Hfirst i' q); [lia | done].
    + destruct (IH b0 k0) as [[Hall Hr] | (i & Hi & Hkey & Hlt' & Hall & Hfirst)];
        simpl in *.
      * left. split; [by constructor | done].
      * right. exists (S i). split; [done |]. split; [done |]. split; [done |].
        split; [constructor; [lia | done] |].
        intros [|i'] q Hi' Hq; simpl in Hq; [injection Hq as <-; lia |].
        apply (Hfirst i' q); [lia | done].
Qed.

(** X5: when some pixel has a row below [INT_MAX], [GetLeftest] returns
    the first pixel of the list whose row is the minimum: it is an element,
    no row is smaller, and every pixel before it has a larger row. *)
Theorem GetLeftest_first_minimum pixels :
  (exists p, p ∈ pixels /\ x p < INT_MAX) ->
  exists i, pixels !! i = Some (GetLeftest pixels) /\
            Forall (fun p => x (GetLeftest pixels) <= x p) pixels /\
            forall i' q, (i' < i)%nat -> pixels !! i' = Some q -> x (GetLeftest pixels) < x q.
Proof.
  intros (p & Hp & Hlt). unfold GetLeftest.
  change (foldl _ _ pixels) with
    (foldl (search_step (fun k p => x p <? k) x) (Pixel_default, INT_MAX) pixels).
  destruct (search_min_fold x pixels Pixel_default INT_MAX)
    as [[Hall _] | (i & Hi & Hkey & _ & Hall & Hfirst)].
  - eapply Forall_forall in Hall; [| exact Hp]. simpl in Hall. lia.
  - exists i. rewrite Hkey. done.
Qed.

Lemma GetLeftest_first_minimum_witness :
  exists i, [mkPixel 3 7; mkPixel 1 2; mkPixel 1 9] !! i
            = Some (GetLeftest [mkPixel 3 7; mkPixel 1 2; mkPixel 1 9]).
Proof.
  destruct (GetLeftest_first_minimum [mkPixel 3 7; mkPixel 1 2; mkPixel 1 9])
    as (i & Hi & _).
  - exists (mkPixel 3 7). split; [left | unfold INT_MAX; simpl; lia].
  - by exists i.
Defined.

(** X6: when some pixel has a row above [INT_MIN], [GetRightest] returns
    the first pixel of the list whose row is the maximum. *)
Theorem GetRightest_first_maximum pixels :
  (exists p, p ∈ pixels /\ INT_MIN < x p) ->
  exists i, pixels !! i = Some (GetRightest pixels) /\
            Forall (fun p => x p <= x (GetRightest pixels)) pixels /\
            forall i' q, (i' < i)%nat -> pixels !! i' = Some q -> x q < x (GetRightest pixels).
Proof.
  intros (p & Hp & Hlt). unfold GetRightest.
  change (foldl _ _ pixels) with
    (foldl (search_step (fun k p => k <? x p) x) (Pixel_default, INT_MIN) pixels).
  destruct (search_max_fold x pixels Pixel_default INT_MIN)
    as [[Hall _] | (i & Hi & Hkey & _ & Hall & Hfirst)].
  - eapply Forall_forall in Hall; [| exact Hp]. simpl in Hall. lia.
  - exists i. rewrite Hkey. done.
Qed.

Lemma GetRightest_first_maximum_witness :
  exists i, [mkPixel 3 7; mkPixel 4 2; mkPixel 4 9] !! i
            = Some (GetRightest [mkPixel 3 7; mkPixel 4 2; mkPixel 4 9]).
Proof.
  destruct (GetRightest_first_maximum [mkPixel 3 7; mkPixel 4 2; mkPixel 4 9])
    as (i & Hi & _).
  - exists (mkPixel 3 7). split; [left | unfold INT_MIN; simpl; lia].
  - by exists i.
Defined.

(** X7: on an empty list all four searches return the default pixel
    (0,0), and so does any search whose baseline no pixel beats: a list
    whose rows are all [INT_MAX] for [GetLeftest], whose rows are all
    [INT_MIN] for [GetRightest]. *)
Theorem extremal_searches_default :
  external_pixels [] = [mkPixel 0 0; mkPixel 0 0; mkPixel 0 0; mkPixel 0 0] /\
  (forall pixels, Forall (fun p => x p = INT_MAX) pixels -> GetLeftest pixels = mkPixel 0 0) /\
  (forall pixels, Forall (fun p => x p = INT_MIN) pixels -> GetRightest pixels = mkPixel 0 0).
Proof.
  split; [reflexivity |]. split; intros pixels Hall.
  - unfold GetLeftest.
    change (foldl _ _ pixels) with
      (foldl (search_step (fun k p => x p <? k) x) (Pixel_default, INT_MAX) pixels).
    rewrite search_never_better; [done |].
    eapply Forall_impl; [exact Hall |]. intros p Hp. cbv beta. apply Z.ltb_ge.
    rewrite Hp. apply Z.le_refl.
  - unfold GetRightest.
    change (foldl _ _ pixels) with
      (foldl (search_step (fun k p => k <? x p) x) (Pixel_default, INT_MIN) pixels).
    rewrite search_never_better; [done |].
    eapply Forall_impl; [exact Hall |]. intros p Hp. cbv beta. apply Z.ltb_ge.
    rewrite Hp. apply Z.le_refl.
Qed.

Lemma extremal_searches_default_witness :
  GetLeftest [mkPixel INT_MAX 3] = mkPixel 0 0.
Proof.
  apply (proj1 (proj2 extremal_searches_default)). by repeat constructor.
Defined.

(** ** The nearness test *)

(** X8: [AreSimilar] holds of every pixel with itself, and on grid
    coordinates it does not depend on the order of its arguments. *)
Theorem AreSimilar_reflexive_symmetric :
  (forall a, AreSimilar a a = true) /\
  (forall a b, grid_pixel a -> grid_pixel b -> AreSimilar a b = AreSimilar b a).
Proof.
  split.
  - intros a. unfold AreSimilar, AreSimilar_int, int_abs, int_sub.
    rewrite !Z.sub_diag. reflexivity.
  - intros a b Ha Hb. apply eq_true_iff_eq.
    rewrite !AreSimilar_near by done. unfold near. lia.
Qed.

Lemma AreSimilar_reflexive_symmetric_witness :
  AreSimilar (mkPixel 3 4) (mkPixel 6 1) = AreSimilar (mkPixel 6 1) (mkPixel 3 4).
Proof.
  apply (proj2 AreSimilar_reflexive_symmetric); unfold grid_pixel, INT_MAX; simpl; lia.
Defined.

(** ** The flood fill covers the grid *)

Lemma visited_adjacent image visited p q :
  Image_wf image ->
  Forall (in_grid image) visited ->
  (forall p ns n, p ∈ visited -> GetNeighbours_pixel image p = Done ns ->
                  n ∈ ns -> n ∈ visited) ->
  p ∈ visited -> q ∈ axis_neighbours p -> in_grid image q -> q ∈ visited.
Proof.
  intros Hwf Hgrid Hclosed Hp Hq Hq_grid.
  assert (in_grid image p) as Hp_grid by (eapply Forall_forall in Hgrid; eauto).
  eapply Hclosed; [exact Hp | by apply GetNeighbours_filter |].
  apply list_elem_of_filter. done.
Qed.

Lemma visited_covers_grid image visited start :
  Image_wf image ->
  Forall (in_grid image) visited ->
  (forall p ns n, p ∈ visited -> GetNeighbours_pixel image p = Done ns ->
                  n ∈ ns -> n ∈ visited) ->
  start ∈ visited ->
  forall q, in_grid image q -> q ∈ visited.
Proof.
  intros Hwf Hgrid Hclosed Hstart.
  assert (in_grid image start) as [Hsx Hsy] by (eapply Forall_forall in Hgrid; eauto).
  assert (forall n a, 0 <= a < GetRows image -> Z.abs (a - x start) = Z.of_nat n ->
                      mkPixel a (y start) ∈ visited) as Hrow.
  { induction n as [|n IH]; intros a Ha Hdist.
    - assert (a = x start) as -> by lia. by destruct start.
    - destruct (Z.lt_ge_cases (x start) a).
      + apply (visited_adjacent image visited (mkPixel (a - 1) (y start)));
          [done.. | apply IH; lia | | split; simpl; lia].
        unfold axis_neighbours. simpl. replace (a - 1 + 1) with a by lia. left.
      + apply (visited_adjacent image visited (mkPixel (a + 1) (y start)));
          [done.. | apply IH; lia | | split; simpl; lia].
        unfold axis_neighbours. simpl. replace (a + 1 - 1) with a by lia.
        right. right. left. }
  assert (forall n a b, 0 <= a < GetRows image ->
                        0 <= b < Z.of_nat (column_count image) ->
                        Z.abs (b - y start) = Z.of_nat n ->
                        mkPixel a b ∈ visited) as Hcol.
  { induction n as [|n IH]; intros a b Ha Hb Hdist.
    - assert (b = y start) as -> by lia. by apply (Hrow (Z.abs_nat (a - x start))); [| lia].
    - destruct (Z.lt_ge_cases (y start) b).
      + apply (visited_adjacent image visited (mkPixel a (b - 1)));
          [done.. | apply IH; lia | | split; simpl; lia].
        unfold axis_neighbours. simpl. replace (b - 1 + 1) with b by lia. right. left.
      + apply (visited_adjacent image visited (mkPixel a (b + 1)));
          [done.. | apply IH; lia | | split; simpl; lia].
        unfold axis_neighbours. simpl. replace (b + 1 - 1) with b by lia.
        right. right. right. left. }
  intros [qx qy] [Hqx Hqy]. simpl in *.
  apply (Hcol (Z.abs_nat (qy - y start))); [done.. | lia].
Qed.

Lemma cells_fit (R C : nat) (l : list Pixel) :
  (forall p, in_range R C p -> p ∈ l) -> (R * C <= length l)%nat.
Proof.
  intros Hall. destruct (decide (C = 0%nat)) as [-> | HC]; [lia |].
  set (cell := fun n : nat => mkPixel (Z.of_nat (n / C)) (Z.of_nat (n `mod` C))).
  enough (length (cell <$> seq 0 (R * C)) <= length l)%nat as Hle
    by (by rewrite length_fmap, length_seq in Hle).
  apply submseteq_length, NoDup_submseteq.
  - apply NoDup_fmap_2_strong; [| apply NoDup_seq].
    intros n m _ _ [= Hdiv Hmod].
    rewrite (Nat.div_mod_eq n C), (Nat.div_mod_eq m C). lia.
  - intros p (n & -> & Hn)%list_elem_of_fmap. apply elem_of_seq in Hn.
    apply Hall. unfold in_range, cell. simpl.
    pose proof (Nat.mod_upper_bound n C HC).
    assert (n / C < R)%nat by (apply Nat.Div0.div_lt_upper_bound; lia). lia.
Qed.

Lemma BFS_coverage image start bp :
  Image_wf image -> in_grid image start ->
  exists st visited,
    BFS_run start image bp = Done (st, visited) /\
    NoDup visited /\
    (forall p, p ∈ visited <-> in_grid image p) /\
    length visited = cell_count image /\
    BFS start image bp = Done (bp ++ filter (fun p => is_stroke image p) visited).
Proof.
  intros Hwf Hstart.
  destruct (BFS_run_spec image start bp Hwf Hstart)
    as (st0 & st & visited & _ & Hrun & Hq & Hinv & _ & Hpre).
  pose proof (BFS_inv_bound _ _ _ _ Hinv) as Hbound.
  destruct Hinv as [_ _ _ Hnd Hgrid _ Hclosed Hout]. rewrite Hq, app_nil_r in *.
  simpl in Hbound.
  assert (forall p, in_grid image p -> p ∈ visited) as Hcover.
  { apply (visited_covers_grid image visited start);
      [done | done | intros p ns n Hp Hns Hn; by eapply Hclosed |].
    destruct Hpre as [rest ->]. left. }
  exists st, visited. split; [done |]. split; [done |]. split; [| split].
  - intros p. split; [| apply Hcover]. intros Hp. eapply Forall_forall in Hgrid; eauto.
  - pose proof (cells_fit _ _ visited Hcover) as Hfit. unfold cell_count, column_count in *.
    lia.
  - unfold BFS. rewrite Hrun. simpl. by rewrite Hout.
Qed.

(** X9: on a well-formed image, from any seed of the grid, the flood fill
    pops every position of the grid exactly once, whatever the colours:
    it makes rows * columns iterations. *)
Theorem BFS_visits_every_cell_once image start bp :
  Image_wf image -> in_grid image start ->
  exists st visited,
    BFS_run start image bp = Done (st, visited) /\
    NoDup visited /\
    (forall p, p ∈ visited <-> in_grid image p) /\
    length visited = cell_count image.
Proof.
  intros Hwf Hstart.
  destruct (BFS_coverage image start bp Hwf Hstart)
    as (st & visited & Hrun & Hnd & Hcover & Hlen & _).
  by exists st, visited.
Qed.

Lemma BFS_visits_every_cell_once_witness :
  exists st visited,
    BFS_run (mkPixel 1 1) image_2x2 [] = Done (st, visited) /\
    length visited = cell_count image_2x2.
Proof.
  destruct (BFS_visits_every_cell_once image_2x2 (mkPixel 1 1) [])
    as (st & visited & Hrun & _ & _ & Hlen).
  - split; [unfold GetRows, INT_MAX; simpl; lia |].
    exists 2%nat. split; [unfold INT_MAX; lia |]. repeat constructor.
  - unfold in_grid, GetRows, column_count. simpl. lia.
  - by exists st, visited.
Defined.

(** X10: on a well-formed image, from any seed of the grid, the pixels
    that [BFS] appends to an empty vector are exactly the stroke pixels of
    the whole image, each one once; the seed only influences their order. *)
Theorem BFS_collects_all_strokes image start :
  Image_wf image -> in_grid image start ->
  exists out,
    BFS start image [] = Done out /\
    NoDup out /\
    (forall p, p ∈ out <-> in_grid image p /\ IsWhite_pixel image p = Done false).
Proof.
  intros Hwf Hstart.
  destruct (BFS_coverage image start [] Hwf Hstart)
    as (st & visited & _ & Hnd & Hcover & _ & Hout).
  eexists. split; [exact Hout |]. simpl. split; [by apply NoDup_filter |].
  intros p. rewrite list_elem_of_filter, Hcover. unfold is_stroke.
  split.
  - intros [Hs Hp]. split; [done |].
    destruct (IsWhite_pixel image p) as [[|] | |]; done.
  - intros [Hp ->]. done.
Qed.

Lemma BFS_collects_all_strokes_witness :
  exists out, BFS (mkPixel 0 1) image_2x2 [] = Done out /\ NoDup out.
Proof.
  destruct (BFS_collects_all_strokes image_2x2 (mkPixel 0 1)) as (out & Hout & Hnd & _).
  - split; [unfold GetRows, INT_MAX; simpl; lia |].
    exists 2%nat. split; [unfold INT_MAX; lia |]. repeat constructor.
  - unfold in_grid, GetRows, column_count. simpl. lia.
  - by exists out.
Defined.

(** ** The seed and the caller's vector *)

(** X11: a seed outside the grid makes [BFS] write outside [used] (or read
    the first row of a grid without rows) before the loop starts. *)
Theorem BFS_seed_outside_grid_faults image start bp :
  ~ in_grid image start -> exists f, BFS start image bp = Fault f.
Proof.
  intros Hout. unfold BFS, BFS_run, BFS_init.
  destruct (GetColumns_cases image) as [-> | ->]; simpl; [| by eexists].
  unfold GetRows. rewrite !Nat2Z.id.
  set (R := length (is_white_ image)). set (C := column_count image).
  unfold grid_set.
  destruct (vec_at (replicate R (replicate C false)) (x start)) as [r | f |] eqn:Hr;
    simpl; [| by eexists |].
  - apply vec_at_Done in Hr as [Hx Hr]. apply lookup_replicate in Hr as [-> HxR].
    assert (vec_set (replicate C false) (y start) true
            = Fault (BadIndex (Z.of_nat C) (y start))) as ->.
    { unfold vec_set. rewrite length_replicate.
      destruct (Z.ltb_spec (y start) 0); simpl; [done |].
      destruct (Z.leb_spec (Z.of_nat C) (y start)); simpl; [done |].
      exfalso. apply Hout. unfold in_grid, GetRows. fold R C. lia. }
    simpl. by eexists.
  - unfold vec_at in Hr. repeat case_match; done.
Qed.

Lemma BFS_seed_outside_grid_faults_witness :
  exists f, BFS (mkPixel 2 0) image_2x2 [] = Fault f.
Proof.
  apply (BFS_seed_outside_grid_faults image_2x2 (mkPixel 2 0) []).
  unfold in_grid, GetRows. simpl. lia.
Defined.

Lemma BFS_body_with_prefix image pre st :
  BFS_body image (with_prefix pre st)
  = match BFS_body image st with
    | Done (next, st') => Done (next, with_prefix pre st')
    | Fault f => Fault f
    | OutOfFuel => OutOfFuel
    end.
Proof.
  unfold BFS_body, with_prefix. simpl. destruct (queue st) as [|next q]; [done |].
  destruct (IsWhite_pixel image next) as [w | |]; simpl; try done.
  destruct (GetNeighbours_pixel image next) as [ns | |]; simpl; try done.
  destruct (BFS_visit ns q (used st)) as [[q' u'] | |]; simpl; try done.
  destruct w; simpl; [done |]. by rewrite app_assoc.
Qed.

Lemma BFS_loop_with_prefix image pre fuel :
  forall st visited,
    BFS_loop fuel image (with_prefix pre st) visited
    = match BFS_loop fuel image st visited with
      | Done (st', visited') => Done (with_prefix pre st', visited')
      | Fault f => Fault f
      | OutOfFuel => OutOfFuel
      end.
Proof.
  induction fuel as [|fuel IH]; intros st visited; simpl;
    change (BFS_continue (with_prefix pre st)) with (BFS_continue st);
    destruct (BFS_continue st); simpl; try done.
  rewrite BFS_body_with_prefix.
  destruct (BFS_body image st) as [[next st'] | |]; simpl; done.
Qed.

(** X12: [BFS] only appends to the vector it is given: called with a
    vector [bp] it ends exactly as it does with an empty vector, and when
    it returns the result is [bp] followed by what it collects into the
    empty vector. *)
Theorem BFS_appends_to_given_vector image start bp :
  BFS start image bp
  = match BFS start image [] with
    | Done out => Done (bp ++ out)
    | Fault f => Fault f
    | OutOfFuel => OutOfFuel
    end.
Proof.
  unfold BFS, BFS_run, BFS_init.
  destruct (GetColumns image) as [c | |]; simpl; try done.
  destruct (grid_set _ (x start) (y start) true) as [u | |]; simpl; try done.
  replace (mkBfs [start] u 0 1 bp) with (with_prefix bp (mkBfs [start] u 0 1 []))
    by (unfold with_prefix; simpl; by rewrite app_nil_r).
  rewrite BFS_loop_with_prefix.
  destruct (BFS_loop _ image (mkBfs [start] u 0 1 []) []) as [[st visited] | |]; done.
Qed.

(** ** What a positive verdict needs *)

Lemma filter_all {A} (P : A -> Prop) `{forall a, Decision (P a)} (l : list A) :
  Forall P l -> filter P l = l.
Proof.
  induction 1 as [|a l Ha _ IH]; [done |].
  rewrite filter_cons. case_decide; [by rewrite IH | done].
Qed.

Lemma filter_none {A} (P : A -> Prop) `{forall a, Decision (P a)} (l : list A) :
  Forall (fun a => ~ P a) l -> filter P l = [].
Proof.
  induction 1 as [|a l Ha _ IH]; [done |].
  rewrite filter_cons. case_decide; [done | by rewrite IH].
Qed.

Lemma near_refl a : near a a.
Proof. unfold near. rewrite !Z.sub_diag. simpl. lia. Qed.

Lemma classify_true_extremes bp :
  Forall grid_pixel bp -> classify bp = true ->
  let l := GetLeftest bp in let r := GetRightest bp in let h := GetHighest bp in
  l ∈ bp /\ r ∈ bp /\ h ∈ bp /\
  ~ near l r /\ ~ near l h /\ ~ near r h /\
  ~ near l (mkPixel 0 0) /\ ~ near r (mkPixel 0 0) /\ ~ near h (mkPixel 0 0).
Proof.
  intros Hgrid Hclass. simpl.
  pose proof (proj1 (classify_spec bp Hgrid) Hclass) as Hpairs.
  assert (GetLowest bp = mkPixel 0 0) as Hlow.
  { apply GetLowest_default. eapply Forall_impl; [exact Hgrid | apply grid_pixel_int]. }
  unfold external_pixels in Hpairs. rewrite Hlow in Hpairs.
  pose proof (Hpairs 0%nat 1%nat _ _ ltac:(lia) eq_refl eq_refl) as Hlr.
  pose proof (Hpairs 0%nat 2%nat _ _ ltac:(lia) eq_refl eq_refl) as Hlo.
  pose proof (Hpairs 0%nat 3%nat _ _ ltac:(lia) eq_refl eq_refl) as Hlh.
  pose proof (Hpairs 1%nat 2%nat _ _ ltac:(lia) eq_refl eq_refl) as Hro.
  pose proof (Hpairs 1%nat 3%nat _ _ ltac:(lia) eq_refl eq_refl) as Hrh.
  pose proof (Hpairs 2%nat 3%nat _ _ ltac:(lia) eq_refl eq_refl) as Hoh.
  assert (GetLeftest bp = Pixel_default \/ GetLeftest bp ∈ bp) as [Hl | Hl]
    by apply (search_result_origin (fun k p => x p <? k) x).
  { exfalso. apply Hlo. rewrite Hl. apply near_refl. }
  assert (GetRightest bp = Pixel_default \/ GetRightest bp ∈ bp) as [Hr | Hr]
    by apply (search_result_origin (fun k p => k <? x p) x).
  { exfalso. apply Hro. rewrite Hr. apply near_refl. }
  assert (GetHighest bp = Pixel_default \/ GetHighest bp ∈ bp) as [Hh | Hh]
    by apply (search_result_origin (fun k p => k <? y p) y).
  { exfalso. apply Hoh. rewrite Hh. apply near_refl. }
  repeat (split; [done |]). intros [H1 H2]. apply Hoh.
  unfold near. cbn [x y] in H1, H2 |- *. lia.
Qed.

(** X13: a positive verdict of [IsIntersection] needs three stroke pixels
    in the image that are pairwise not near each other and none of which is
    near the corner (0,0), the pixel that [GetLowest] contributes. *)
Theorem junction_needs_three_strokes image start :
  Image_wf image -> in_grid image start ->
  IsIntersection start image = Done true ->
  exists a b c,
    (in_grid image a /\ IsWhite_pixel image a = Done false) /\
    (in_grid image b /\ IsWhite_pixel image b = Done false) /\
    (in_grid image c /\ IsWhite_pixel image c = Done false) /\
    ~ near a b /\ ~ near a c /\ ~ near b c /\
    ~ near a (mkPixel 0 0) /\ ~ near b (mkPixel 0 0) /\ ~ near c (mkPixel 0 0).
Proof.
  intros Hwf Hstart Hverdict.
  destruct (BFS_coverage image start [] Hwf Hstart)
    as (st & visited & _ & _ & Hcover & _ & Hout).
  simpl in Hout. unfold IsIntersection in Hverdict. rewrite Hout in Hverdict.
  simpl in Hverdict. injection Hverdict as Hclass.
  set (out := filter (fun p => is_stroke image p) visited) in *.
  assert (forall p, p ∈ out -> in_grid image p /\ IsWhite_pixel image p = Done false) as Hstroke.
  { intros p [Hs Hp]%list_elem_of_filter. split; [by apply Hcover |].
    unfold is_stroke in Hs. destruct (IsWhite_pixel image p) as [[|] | |]; done. }
  assert (Forall grid_pixel out) as Hgrid.
  { apply Forall_forall. intros p Hp. apply (Image_wf_grid_pixel image); [done |].
    by apply Hstroke. }
  destruct (classify_true_extremes out Hgrid Hclass)
    as (Hl & Hr & Hh & Hlr & Hlh & Hrh & Hlo & Hro & Hho).
  exists (GetLeftest out), (GetRightest out), (GetHighest out).
  repeat (split; [by (apply Hstroke || done) |]). done.
Qed.

Lemma junction_needs_three_strokes_witness :
  exists a b c,
    IsWhite_pixel (Image_of_Mat mat_ladder) a = Done false /\
    IsWhite_pixel (Image_of_Mat mat_ladder) b = Done false /\
    IsWhite_pixel (Image_of_Mat mat_ladder) c = Done false /\
    ~ near a b /\ ~ near a c /\ ~ near b c.
Proof.
  destruct (junction_needs_three_strokes (Image_of_Mat mat_ladder) (mkPixel 0 0))
    as (a & b & c & [_ Ha] & [_ Hb] & [_ Hc] & Hab & Hac & Hbc & _).
  - apply Image_of_Mat_wf; unfold INT_MAX; simpl; lia.
  - unfold in_grid, GetRows, column_count. simpl. lia.
  - vm_compute. reflexivity.
  - by exists a, b, c.
Defined.

(** ** Pages without junctions *)

Lemma column_step cols j fuel :
  cols <= INT_MAX -> 0 <= j < cols -> cols - j <= Z.of_nat (S fuel) ->
  is_int (int_add j STEP) /\
  (int_add j STEP < 0 \/ cols - int_add j STEP <= Z.of_nat fuel).
Proof.
  intros Hcols Hj Hfuel. split; [apply wrap_int_is_int |].
  unfold int_add, wrap_int, STEP. unfold INT_MAX in *.
  destruct (Z.le_gt_cases (j + 5) 2147483647).
  - right. rewrite Z.mod_small by lia. lia.
  - left. rewrite <- (Z_mod_plus_full _ (-1)). rewrite Z.mod_small by lia. lia.
Qed.

Lemma scan_columns_no_hit image :
  Image_wf image ->
  (forall p, in_grid image p -> IsWhite_pixel image p = Done true ->
             IsIntersection p image = Done false) ->
  forall fuel i j found,
    0 <= i < GetRows image -> is_int j ->
    (j < 0 \/ Z.of_nat (column_count image) - j <= Z.of_nat fuel) ->
    scan_columns fuel image i j found = Done (i, found).
Proof.
  intros Hwf Hnone. pose proof (Image_wf_columns image Hwf) as Hcols.
  induction fuel as [|fuel IH]; intros i j found Hi Hj Hfuel; simpl;
    rewrite GetColumns_nonempty by lia; simpl;
    destruct (int_lt_size j _) eqn:Hlt; simpl; try done;
    apply int_lt_size_true in Hlt; try done.
  - lia.
  - destruct (column_step _ j fuel Hcols Hlt) as [Hj' Hfuel']; [lia |].
    assert (in_grid image (mkPixel i j)) as Hgrid by done.
    destruct (IsWhite_in_grid image _ Hwf Hgrid) as [w Hw].
    unfold IsWhite_pixel in Hw. simpl in Hw. rewrite Hw. simpl.
    destruct w; simpl; [| by apply IH].
    rewrite (Hnone _ Hgrid Hw). simpl. by apply IH.
Qed.

Lemma scan_no_hit image :
  Image_wf image ->
  (forall p, in_grid image p -> IsWhite_pixel image p = Done true ->
             IsIntersection p image = Done false) ->
  scan image = Done [].
Proof.
  intros Hwf Hnone. pose proof Hwf as [HR _]. unfold scan.
  assert (forall fuel i found, is_int i ->
            (i < 0 \/ GetRows image - i <= Z.of_nat fuel) ->
            scan_rows fuel image i found = Done found) as Hrows.
  { induction fuel as [|fuel IH]; intros i found Hi Hfuel; simpl;
      destruct (int_lt_size i (GetRows image)) eqn:Hlt; simpl; try done;
      apply int_lt_size_true in Hlt; try done.
    - lia.
    - rewrite (scan_columns_no_hit image Hwf Hnone);
        [| done | unfold is_int, INT_MIN, INT_MAX; lia | right; lia].
      simpl. apply IH; [apply wrap_int_is_int |].
      unfold int_add, wrap_int, STEP. unfold is_int, INT_MIN, INT_MAX in *.
      destruct (Z.le_gt_cases (i + 5) 2147483647).
      + rewrite Z.mod_small by lia. lia.
      + left. rewrite <- (Z_mod_plus_full _ (-1)). rewrite Z.mod_small by lia. lia. }
  apply Hrows; [unfold is_int, INT_MIN, INT_MAX; lia |]. right. unfold GetRows. lia.
Qed.

Lemma scan_without_strokes image :
  Image_wf image ->
  (forall p, in_grid image p -> IsWhite_pixel image p = Done true) ->
  scan image = Done [].
Proof.
  intros Hwf Hwhite. apply scan_no_hit; [done |]. intros p Hp _.
  destruct (BFS_coverage image p [] Hwf Hp) as (st & visited & _ & _ & Hcover & _ & Hout).
  unfold IsIntersection. rewrite Hout. simpl.
  rewrite filter_none; [reflexivity |].
  apply Forall_forall. intros q Hq. apply Hcover in Hq.
  cbv beta. unfold is_stroke. rewrite (Hwhite q Hq). simpl. tauto.
Qed.

Lemma scan_without_background image :
  Image_wf image ->
  (forall p, in_grid image p -> IsWhite_pixel image p = Done false) ->
  scan image = Done [].
Proof.
  intros Hwf Hblack. apply scan_no_hit; [done |]. intros p Hp Hw.
  rewrite (Hblack p Hp) in Hw. discriminate.
Qed.

Lemma in_grid_Image_of_Mat decoded p :
  0 <= mat_rows decoded -> 0 <= mat_cols decoded ->
  in_grid (Image_of_Mat decoded) p ->
  0 <= x p < mat_rows decoded /\ 0 <= y p < mat_cols decoded.
Proof.
  intros HR HC [Hx Hy]. unfold GetRows, column_count, Image_of_Mat in *. simpl in *.
  rewrite length_fmap, length_seqZ in Hx. split; [lia |].
  rewrite list_lookup_fmap, lookup_seqZ_lt in Hy by lia. simpl in Hy.
  rewrite length_fmap, length_seqZ in Hy. lia.
Qed.

(** X14: a page whose samples are all 0, and a page whose samples are all
    non-zero, make [main] print 0: on the first no stroke pixel is
    collected, on the second no sample is white. *)
Theorem main_uniform_page argc decoded :
  2 <= argc ->
  0 <= mat_rows decoded <= INT_MAX -> 0 <= mat_cols decoded <= INT_MAX ->
  (forall i j, 0 <= i < mat_rows decoded -> 0 <= j < mat_cols decoded ->
               mat_at decoded i j = 0) \/
  (forall i j, 0 <= i < mat_rows decoded -> 0 <= j < mat_cols decoded ->
               mat_at decoded i j <> 0) ->
  main argc decoded = Done ("0" +:+ endl, 0).
Proof.
  intros Hargc HR HC Huniform.
  assert (Image_wf (Image_of_Mat decoded)) as Hwf by (apply Image_of_Mat_wf; lia).
  assert (scan (Image_of_Mat decoded) = Done []) as Hscan.
  { destruct Huniform as [Hzero | Hnonzero].
    - apply scan_without_strokes; [done |]. intros p Hp.
      apply in_grid_Image_of_Mat in Hp as [Hx Hy]; [| lia..].
      unfold IsWhite_pixel. rewrite Image_of_Mat_lookup by done.
      by rewrite (Hzero _ _ Hx Hy).
    - apply scan_without_background; [done |]. intros p Hp.
      apply in_grid_Image_of_Mat in Hp as [Hx Hy]; [| lia..].
      unfold IsWhite_pixel. rewrite Image_of_Mat_lookup by done.
      f_equal. apply Z.eqb_neq. by apply Hnonzero. }
  unfold main. destruct (Z.ltb_spec argc 2); [lia |]. rewrite Hscan. reflexivity.
Qed.

Lemma main_uniform_page_witness :
  main 2 (mkMat 7 9 (fun _ _ => 0)) = Done ("0" +:+ endl, 0).
Proof.
  apply (main_uniform_page 2 (mkMat 7 9 (fun _ _ => 0)));
    [lia | unfold INT_MAX; simpl; lia | unfold INT_MAX; simpl; lia |].
  left. done.
Defined.

(** ** What the scan records *)

Lemma spaced_rows_snoc found i j :
  spaced_rows found -> Forall (fun p => x p + 20 <= i) found ->
  spaced_rows (found ++ [mkPixel i j]).
Proof.
  intros Hsp Hbound k k' a b Hk Ha Hb.
  destruct (decide (k' < length found)%nat) as [Hlt | Hge].
  - rewrite lookup_app_l in Ha, Hb by lia. exact (Hsp k k' a b Hk Ha Hb).
  - rewrite lookup_app_r in Hb by lia.
    destruct (k' - length found)%nat as [|n] eqn:Hn; simpl in Hb; [| by destruct n].
    injection Hb as <-. simpl.
    rewrite lookup_app_l in Ha by lia.
    eapply Forall_lookup_1 in Ha; [| exact Hbound]. done.
Qed.

Lemma scan_columns_inv image :
  Image_wf image ->
  forall fuel i j found r,
    is_int i -> (i <= INT_MIN + 19 \/ (0 <= i /\ (5 | i))) ->
    is_int j -> (j <= INT_MIN + 4 \/ (0 <= j /\ (5 | j))) ->
    Forall (accepted image) found -> spaced_rows found ->
    (i <= INT_MIN + 19 \/ Forall (fun p => x p + 20 <= i) found) ->
    scan_columns fuel image i j found = Done r ->
    is_int r.1 /\ (r.1 <= INT_MIN + 19 \/ (0 <= r.1 /\ (5 | r.1))) /\
    Forall (accepted image) r.2 /\ spaced_rows r.2 /\
    (r.1 <= INT_MIN + 19 \/ Forall (fun p => x p + 20 <= r.1) r.2).
Proof.
  intros Hwf. pose proof (Image_wf_columns image Hwf) as Hcols. pose proof Hwf as [HR _].
  induction fuel as [|fuel IH]; intros i j found r Hi Hi5 Hj Hj5 Hacc Hsp Hbound; simpl;
    (destruct (GetColumns_cases image) as [-> | ->]; simpl; [| done]);
    destruct (int_lt_size j _) eqn:Hlt; simpl; try done;
    try (intros [= <-]; done).
  apply int_lt_size_true in Hlt; [| done..].
  destruct (IsWhite image i j) as [w | |] eqn:Hw; simpl; try done.
  pose proof (IsWhite_Done_in_grid image i j w Hwf Hw) as Hgrid.
  pose proof Hgrid as [[Hi0 Hi1] _]. simpl in Hi0, Hi1.
  destruct Hi5 as [Hneg | [_ Hi5]]; [unfold INT_MIN in Hneg; lia |].
  destruct Hj5 as [Hneg | [_ Hj5]]; [unfold INT_MIN in Hneg; lia |].
  destruct Hbound as [Hneg | Hbound]; [unfold INT_MIN in Hneg; lia |].
  assert (is_int (int_add j STEP) /\
          (int_add j STEP <= INT_MIN + 4 \/ (0 <= int_add j STEP /\ (5 | int_add j STEP))))
    as [Hj' Hj5'].
  { split; [apply wrap_int_is_int |]. unfold int_add, wrap_int, STEP, INT_MIN, INT_MAX in *.
    destruct (Z.le_gt_cases (j + 5) 2147483647).
    - right. rewrite Z.mod_small by lia.
      replace (j + 5 + 2147483648 - 2147483648) with (j + 5) by lia.
      split; [lia |]. apply Z.divide_add_r; [done | apply Z.divide_refl].
    - left. rewrite <- (Z_mod_plus_full _ (-1)). rewrite Z.mod_small by lia. lia. }
  assert (forall r, scan_columns fuel image i (int_add j STEP) found = Done r ->
    is_int r.1 /\ (r.1 <= INT_MIN + 19 \/ (0 <= r.1 /\ (5 | r.1))) /\
    Forall (accepted image) r.2 /\ spaced_rows r.2 /\
    (r.1 <= INT_MIN + 19 \/ Forall (fun p => x p + 20 <= r.1) r.2)) as Hsame.
  { intros r'. apply IH; try done; right; done. }
  destruct w; simpl; [| apply Hsame].
  destruct (IsIntersection (mkPixel i j) image) as [b | |] eqn:Hb; simpl; try done.
  destruct b; simpl; [| apply Hsame].
  apply IH; try done.
  - apply wrap_int_is_int.
  - unfold int_add, wrap_int, INT_MIN, INT_MAX in *.
    destruct (Z.le_gt_cases (i + 20) 2147483647).
    + right. rewrite Z.mod_small by lia.
      replace (i + 20 + 2147483648 - 2147483648) with (i + 20) by lia.
      split; [lia |]. apply Z.divide_add_r; [done | by exists 4].
    + left. rewrite <- (Z_mod_plus_full _ (-1)). rewrite Z.mod_small by lia. lia.
  - apply Forall_app. split; [done |]. apply Forall_singleton.
    unfold accepted, IsWhite_pixel. simpl. done.
  - by apply spaced_rows_snoc.
  - unfold int_add, wrap_int, INT_MIN, INT_MAX in *.
    destruct (Z.le_gt_cases (i + 20) 2147483647).
    + right. rewrite Z.mod_small by lia.
      apply Forall_app. split; [| apply Forall_singleton; simpl; lia].
      eapply Forall_impl; [exact Hbound |]. intros p Hp. simpl in *. lia.
    + left. rewrite <- (Z_mod_plus_full _ (-1)). rewrite Z.mod_small by lia. lia.
Qed.

Lemma scan_rows_inv image :
  Image_wf image ->
  forall fuel i found result,
    is_int i -> (i <= INT_MIN + 24 \/ (0 <= i /\ (5 | i))) ->
    Forall (accepted image) found -> spaced_rows found ->
    (i <= INT_MIN + 24 \/ Forall (fun p => x p + 20 <= i) found) ->
    scan_rows fuel image i found = Done result ->
    Forall (accepted image) result /\ spaced_rows result.
Proof.
  intros Hwf. pose proof Hwf as [HR _].
  induction fuel as [|fuel IH]; intros i found result Hi Hi5 Hacc Hsp Hbound; simpl;
    destruct (int_lt_size i (GetRows image)) eqn:Hlt; simpl; try done;
    try (intros [= <-]; done).
  apply int_lt_size_true in Hlt; [| done..].
  destruct Hi5 as [Hneg | Hi5]; [unfold INT_MIN in Hneg; lia |].
  destruct Hbound as [Hneg | Hbound]; [unfold INT_MIN in Hneg; lia |].
  destruct (scan_columns (column_count image) image i 0 found) as [r | |] eqn:Hcols;
    simpl; try done.
  apply (scan_columns_inv image Hwf) in Hcols
    as (Hr & Hr5 & Hacc' & Hsp' & Hbound');
    [| done | by right | unfold is_int, INT_MIN, INT_MAX; lia
     | right; split; [lia | apply Z.divide_0_r] | done | done | by right].
  apply IH; try done.
  - apply wrap_int_is_int.
  - unfold int_add, wrap_int, STEP, is_int, INT_MIN, INT_MAX in *.
    destruct Hr5 as [Hneg | [Hr0 Hr5]].
    + left. rewrite Z.mod_small by lia. lia.
    + destruct (Z.le_gt_cases (r.1 + 5) 2147483647).
      * right. rewrite Z.mod_small by lia.
        replace (r.1 + 5 + 2147483648 - 2147483648) with (r.1 + 5) by lia.
        split; [lia |]. apply Z.divide_add_r; [done | apply Z.divide_refl].
      * left. rewrite <- (Z_mod_plus_full _ (-1)). rewrite Z.mod_small by lia. lia.
  - unfold int_add, wrap_int, STEP, is_int, INT_MIN, INT_MAX in *.
    destruct Hbound' as [Hneg | Hbound'].
    + left. rewrite Z.mod_small by lia. lia.
    + destruct (Z.le_gt_cases (r.1 + 5) 2147483647).
      * right. rewrite Z.mod_small by lia.
        eapply Forall_impl; [exact Hbound' |]. intros p Hp. simpl in *. lia.
      * left. rewrite <- (Z_mod_plus_full _ (-1)). rewrite Z.mod_small by lia. lia.
Qed.

Lemma scan_inv image found :
  Image_wf image -> scan image = Done found ->
  Forall (accepted image) found /\ spaced_rows found.
Proof.
  intros Hwf Hscan. unfold scan in Hscan.
  apply (scan_rows_inv image Hwf) in Hscan; [done | ..].
  - unfold is_int, INT_MIN, INT_MAX. lia.
  - right. split; [lia | apply Z.divide_0_r].
  - done.
  - intros k k' a b _ Ha. by rewrite lookup_nil in Ha.
  - by right.
Qed.

(** X15: when the scan completes, every recorded candidate is a white
    pixel of the grid with both coordinates multiples of 5 that
    [IsIntersection] accepted, and each candidate lies at least 20 rows
    below the one recorded before it. *)
Theorem scan_candidates_accepted_and_spaced image found :
  Image_wf image -> scan image = Done found ->
  Forall (accepted image) found /\ spaced_rows found.
Proof. apply scan_inv. Qed.

Lemma scan_candidates_accepted_and_spaced_witness :
  scan (Image_of_Mat mat_ladder) = Done [mkPixel 0 0] /\
  Forall (accepted (Image_of_Mat mat_ladder)) [mkPixel 0 0].
Proof.
  assert (scan (Image_of_Mat mat_ladder) = Done [mkPixel 0 0]) as Hscan
    by (vm_compute; reflexivity).
  split; [exact Hscan |].
  apply (scan_candidates_accepted_and_spaced (Image_of_Mat mat_ladder) _); [| exact Hscan].
  apply Image_of_Mat_wf; unfold INT_MAX; simpl; lia.
Defined.

(** ** Deduplication of what the scan records *)

Lemma spaced_rows_length (R : nat) found :
  spaced_rows found -> Forall (fun p => 0 <= x p < Z.of_nat R) found ->
  (length found <= R)%nat.
Proof.
  intros Hsp Hrange.
  enough (length ((fun p => mkPixel (x p) 0) <$> found) <= R * 1)%nat as Hle
    by (rewrite length_fmap in Hle; lia).
  apply NoDup_in_range_length.
  - apply NoDup_alt. intros k k' p Hk Hk'.
    apply list_lookup_fmap_Some in Hk as (a & -> & Ha).
    apply list_lookup_fmap_Some in Hk' as (b & [= Hab] & Hb).
    destruct (Nat.lt_trichotomy k k') as [Hlt | [-> | Hgt]]; [| done |].
    + pose proof (Hsp k k' a b Hlt Ha Hb). lia.
    + pose proof (Hsp k' k b a Hgt Hb Ha). lia.
  - apply Forall_fmap. eapply Forall_impl; [exact Hrange |].
    intros p Hp. cbv beta in Hp. unfold compose, in_range. cbn [x y]. lia.
Qed.

Lemma mark_bad_spaced found :
  Forall grid_pixel found -> spaced_rows found ->
  Forall (fun is_bad => is_bad = false) (mark_bad found).
Proof.
  intros Hgrid Hsp. apply Forall_lookup. intros k is_bad Hk.
  destruct is_bad; [| done]. exfalso.
  apply mark_bad_near in Hk as (i & a & b & Hik & Ha & Hb & [Hx _]); [| done].
  pose proof (Hsp i k a b Hik Ha Hb). lia.
Qed.

Lemma scan_output_kept image found :
  Image_wf image -> scan image = Done found ->
  Forall (fun is_bad => is_bad = false) (mark_bad found) /\
  intersections_count found = Z.of_nat (length found).
Proof.
  intros Hwf Hscan. destruct (scan_inv image found Hwf Hscan) as [Hacc Hsp].
  assert (Forall grid_pixel found) as Hgrid.
  { eapply Forall_impl; [exact Hacc |]. intros p [Hp _].
    by apply (Image_wf_grid_pixel image). }
  assert (Z.of_nat (length found) <= INT_MAX) as Hlen.
  { destruct Hwf as [HR _]. unfold GetRows in HR.
    enough (length found <= length (is_white_ image))%nat by lia.
    apply spaced_rows_length; [done |].
    eapply Forall_impl; [exact Hacc |]. intros p [[Hx _] _]. exact Hx. }
  pose proof (mark_bad_spaced found Hgrid Hsp) as Hnone.
  split; [done |].
  rewrite intersections_count_spec by done.
  by rewrite filter_all, mark_bad_length.
Qed.

(** X16: on what a completed scan records, deduplication marks nothing:
    successive candidates are at least 20 rows apart, so no two are near,
    and [main] prints the number of recorded candidates. *)
Theorem dedup_keeps_every_scan_candidate argc decoded found :
  2 <= argc ->
  mat_rows decoded <= INT_MAX -> mat_cols decoded <= INT_MAX ->
  scan (Image_of_Mat decoded) = Done found ->
  Forall (fun is_bad => is_bad = false) (mark_bad found) /\
  main argc decoded = Done (pretty (Z.of_nat (length found)) +:+ endl, 0).
Proof.
  intros Hargc HR HC Hscan.
  destruct (scan_output_kept (Image_of_Mat decoded) found) as [Hnone Hcount];
    [by apply Image_of_Mat_wf | done |].
  split; [done |]. unfold main. destruct (Z.ltb_spec argc 2); [lia |].
  rewrite Hscan. simpl. by rewrite Hcount.
Qed.

Lemma dedup_keeps_every_scan_candidate_witness :
  main 2 mat_ladder = Done (pretty (Z.of_nat (length [mkPixel 0 0])) +:+ endl, 0).
Proof.
  apply (dedup_keeps_every_scan_candidate 2 mat_ladder [mkPixel 0 0]);
    [lia | unfold INT_MAX; simpl; lia | unfold INT_MAX; simpl; lia |].
  vm_compute. reflexivity.
Defined.

(** ** Deduplication of arbitrary candidates *)

Lemma mark_bad_first found : found <> [] -> mark_bad found !! 0%nat = Some false.
Proof.
  intros Hne.
  destruct (lookup_lt_is_Some_2 (mark_bad found) 0) as [is_bad Hb].
  { rewrite mark_bad_length. destruct found; simpl; [done | lia]. }
  destruct is_bad; [| done].
  apply mark_bad_lookup in Hb as (i & Hi & _). lia.
Qed.

(** X17: the first candidate is never marked, and a candidate that is left
    unmarked is not near any candidate before it, marked or not; so the
    unmarked candidates are pairwise not near. *)
Theorem dedup_unmarked_apart found :
  Forall grid_pixel found ->
  (found <> [] -> mark_bad found !! 0%nat = Some false) /\
  (forall i j a b, (i < j)%nat -> found !! i = Some a -> found !! j = Some b ->
     mark_bad found !! j = Some false -> ~ near a b).
Proof.
  intros Hgrid. split; [apply mark_bad_first |].
  intros i j a b Hij Ha Hb Hj Hnear.
  assert (mark_bad found !! j = Some true) as Hj'
    by (apply mark_bad_near; [done |]; by exists i, a, b).
  congruence.
Qed.

Lemma dedup_unmarked_apart_witness :
  mark_bad [mkPixel 0 0; mkPixel 9 9] !! 0%nat = Some false.
Proof.
  apply (dedup_unmarked_apart [mkPixel 0 0; mkPixel 9 9]); [| done].
  repeat constructor; unfold INT_MAX; simpl; lia.
Defined.

(** X18: the count lies between 0 and the number of candidates, and it is
    at least 1 as soon as there is a candidate. *)
Theorem intersections_count_bounds found :
  Z.of_nat (length found) <= INT_MAX ->
  0 <= intersections_count found <= Z.of_nat (length found) /\
  (found <> [] -> 1 <= intersections_count found).
Proof.
  intros Hlen. rewrite intersections_count_spec by done. split.
  - pose proof (length_filter (fun is_bad => is_bad = false) (mark_bad found)) as Hle.
    rewrite mark_bad_length in Hle. lia.
  - intros Hne. pose proof (mark_bad_first found Hne) as Hfirst.
    destruct (mark_bad found) as [|is_bad flags]; simpl in Hfirst; [done |].
    injection Hfirst as ->. rewrite filter_cons. simpl. lia.
Qed.

Lemma intersections_count_bounds_witness :
  1 <= intersections_count [mkPixel 0 0; mkPixel 3 3].
Proof.
  apply (intersections_count_bounds [mkPixel 0 0; mkPixel 3 3]); [| done].
  unfold INT_MAX. simpl. lia.
Defined.

(** X19: two candidates count as one when they are near and as two when
    they are not; a list of candidates that are pairwise not near is
    counted in full. *)
Theorem dedup_counts_separated found :
  Forall grid_pixel found -> Z.of_nat (length found) <= INT_MAX ->
  (forall a b, found = [a; b] -> near a b -> intersections_count found = 1) /\
  ((forall i j a b, (i < j)%nat -> found !! i = Some a -> found !! j = Some b ->
      ~ near a b) ->
   intersections_count found = Z.of_nat (length found)).
Proof.
  intros Hgrid Hlen. split.
  - intros a b -> Hnear.
    apply Forall_cons in Hgrid as [Ha Hgrid]. apply Forall_cons in Hgrid as [Hb _].
    apply AreSimilar_near in Hnear; [| done..].
    unfold intersections_count, mark_bad, mark_after. simpl. rewrite Hnear. reflexivity.
  - intros Hapart. rewrite intersections_count_spec by done.
    rewrite filter_all, mark_bad_length; [done |].
    apply Forall_lookup. intros k is_bad Hk. destruct is_bad; [| done]. exfalso.
    apply mark_bad_near in Hk as (i & a & b & Hik & Ha & Hb & Hnear); [| done].
    by apply (Hapart i k a b).
Qed.

Lemma dedup_counts_separated_witness :
  intersections_count [mkPixel 0 0; mkPixel 3 3] = 1 /\
  intersections_count [mkPixel 0 0; mkPixel 0 5; mkPixel 5 0]
  = Z.of_nat (length [mkPixel 0 0; mkPixel 0 5; mkPixel 5 0]).
Proof.
  split.
  - apply (proj1 (dedup_counts_separated [mkPixel 0 0; mkPixel 3 3]
                    ltac:(repeat constructor; unfold INT_MAX; simpl; lia)
                    ltac:(unfold INT_MAX; simpl; lia)) (mkPixel 0 0) (mkPixel 3 3));
      [done | unfold near; simpl; lia].
  - apply (dedup_counts_separated [mkPixel 0 0; mkPixel 0 5; mkPixel 5 0]);
      [repeat constructor; unfold INT_MAX; simpl; lia | unfold INT_MAX; simpl; lia |].
    intros [|[|[|i]]] [|[|[|j]]] a b Hij Ha Hb; simpl in Ha, Hb; try lia; try done;
      injection Ha as <-; injection Hb as <-; unfold near; simpl; lia.
Defined.

(** ** Pixel comparison *)

(** X20: [operator==] holds exactly of equal pixels and [operator!=] is
    its negation; in particular [BAD_PIXEL] compares unequal to every pixel
    of every grid. *)
Theorem Pixel_eq_structural :
  (forall a b, Pixel_eq a b = true <-> a = b) /\
  (forall a b, Pixel_ne a b = true <-> a <> b) /\
  (forall image p, in_grid image p -> Pixel_ne p BAD_PIXEL = true).
Proof.
  assert (forall a b, Pixel_eq a b = true <-> a = b) as Heq.
  { intros [ax ay] [bx by_]. unfold Pixel_eq. simpl.
    rewrite andb_true_iff, !Z.eqb_eq. split; [intros [-> ->]; done | by intros [= -> ->]]. }
  assert (forall a b, Pixel_ne a b = true <-> a <> b) as Hne.
  { intros a b. unfold Pixel_ne. rewrite negb_true_iff, <- not_true_iff_false, Heq. done. }
  split; [done |]. split; [done |].
  intros image p [Hx _]. apply Hne. intros ->. simpl in Hx. lia.
Qed.

Lemma Pixel_eq_structural_witness : Pixel_ne (mkPixel 0 0) BAD_PIXEL = true.
Proof.
  apply (proj2 (proj2 Pixel_eq_structural) image_2x2 (mkPixel 0 0)).
  unfold in_grid, GetRows, column_count. simpl. lia.
Defined.

(** ** First highest pixel *)

(** X21: when some pixel has a column above [INT_MIN], [GetHighest]
    returns the first pixel of the list whose column is the maximum: it is
    an element, no column is larger, and every pixel before it has a
    smaller column. *)
Theorem GetHighest_first_maximum pixels :
  (exists p, p ∈ pixels /\ INT_MIN < y p) ->
  exists i, pixels !! i = Some (GetHighest pixels) /\
            Forall (fun p => y p <= y (GetHighest pixels)) pixels /\
            forall i' q, (i' < i)%nat -> pixels !! i' = Some q -> y q < y (GetHighest pixels).
Proof.
  intros (p & Hp & Hlt). unfold GetHighest.
  change (foldl _ _ pixels) with
    (foldl (search_step (fun k p => k <? y p) y) (Pixel_default, INT_MIN) pixels).
  destruct (search_max_fold y pixels Pixel_default INT_MIN)
    as [[Hall _] | (i & Hi & Hkey & _ & Hall & Hfirst)].
  - eapply Forall_forall in Hall; [| exact Hp]. simpl in Hall. lia.
  - exists i. rewrite Hkey. done.
Qed.

Lemma GetHighest_first_maximum_witness :
  exists i, [mkPixel 3 7; mkPixel 4 9; mkPixel 1 9] !! i
            = Some (GetHighest [mkPixel 3 7; mkPixel 4 9; mkPixel 1 9]).
Proof.
  destruct (GetHighest_first_maximum [mkPixel 3 7; mkPixel 4 9; mkPixel 1 9])
    as (i & Hi & _).
  - exists (mkPixel 3 7). split; [left | unfold INT_MIN; simpl; lia].
  - by exists i.
Defined.

(** ** Where the scan can fail *)

Lemma IsWhite_fault_row image i j f :
  Image_wf image -> 0 <= j < Z.of_nat (column_count image) ->
  IsWhite image i j = Fault f ->
  f = BadIndex (GetRows image) i /\ (i < 0 \/ GetRows image <= i).
Proof.
  intros Hwf Hj Hf. pose proof (Image_wf_shape image Hwf) as [_ Hrows].
  unfold IsWhite, grid_at in Hf.
  destruct (vec_at (is_white_ image) i) as [r | f0 |] eqn:Hr; simpl in Hf.
  - apply vec_at_Done in Hr as [Hi Hr].
    eapply Forall_lookup_1 in Hrows; [| exact Hr]. simpl in Hrows.
    destruct (vec_at_in_range r j) as (b & Hb & _); [lia |]. congruence.
  - injection Hf as ->. unfold vec_at in Hr. unfold GetRows.
    destruct (Z.ltb_spec i 0); [injection Hr as <-; split; [done | lia] |].
    destruct (is_white_ image !! Z.to_nat i) eqn:Hlook; [done |].
    injection Hr as <-. split; [done |]. apply lookup_ge_None in Hlook. lia.
  - done.
Qed.

Lemma scan_columns_fault image :
  Image_wf image -> 0 < GetRows image ->
  forall fuel i j found f,
    is_int j ->
    scan_columns fuel image i j found = Fault f ->
    exists i', f = BadIndex (GetRows image) i' /\ (i' < 0 \/ GetRows image <= i').
Proof.
  intros Hwf Hpos. pose proof (Image_wf_columns image Hwf) as Hcols.
  induction fuel as [|fuel IH]; intros i j found f Hj; simpl;
    rewrite GetColumns_nonempty by done; simpl;
    destruct (int_lt_size j _) eqn:Hlt; simpl; try done.
  apply int_lt_size_true in Hlt; [| done..].
  destruct (IsWhite image i j) as [w | f0 |] eqn:Hw; simpl.
  - pose proof (IsWhite_Done_in_grid image i j w Hwf Hw) as Hgrid.
    assert (forall i' found', scan_columns fuel image i' (int_add j STEP) found' = Fault f ->
              exists i'', f = BadIndex (GetRows image) i'' /\
                          (i'' < 0 \/ GetRows image <= i'')) as Hnext.
    { intros i' found'. apply IH. apply wrap_int_is_int. }
    destruct w; simpl; [| apply Hnext].
    destruct (IsIntersection_total image (mkPixel i j) Hwf Hgrid) as [b ->]. simpl.
    destruct b; simpl; apply Hnext.
  - intros [= <-]. exists i. by apply (IsWhite_fault_row image i j).
  - done.
Qed.

(** X22: on a well-formed image the only access of the scan that can fall
    outside a vector is the row index of [IsWhite(i, j)]: whenever the scan
    does not complete, it stopped on a read of row [i] with [i] not below
    the number of rows (or wrapped to a negative value). Column indices,
    the flood fill and the classifier never fail. *)
Theorem scan_fails_only_on_row_index image f :
  Image_wf image -> scan image = Fault f ->
  exists i, f = BadIndex (GetRows image) i /\ (i < 0 \/ GetRows image <= i).
Proof.
  intros Hwf. pose proof Hwf as [HR _]. unfold scan.
  enough (forall fuel found i, scan_rows fuel image i found = Fault f ->
            exists i', f = BadIndex (GetRows image) i' /\
                       (i' < 0 \/ GetRows image <= i')) as Hrows by apply Hrows.
  induction fuel as [|fuel IH]; intros found i; simpl;
    destruct (int_lt_size i (GetRows image)) eqn:Hlt; simpl; try done.
  destruct (scan_columns (column_count image) image i 0 found) as [r | f0 |] eqn:Hcols;
    simpl; try done.
  - apply IH.
  - intros [= <-].
    assert (0 < GetRows image) as Hpos.
    { unfold int_lt_size in Hlt. apply Z.ltb_lt in Hlt.
      unfold to_size_t in Hlt. pose proof (Z.mod_pos_bound i 18446744073709551616). lia. }
    apply (scan_columns_fault image Hwf Hpos) in Hcols; [done |].
    unfold is_int, INT_MIN, INT_MAX. lia.
Qed.

Lemma scan_fails_only_on_row_index_witness :
  exists i, BadIndex 11 20 = BadIndex (GetRows (Image_of_Mat mat_three_dots)) i /\
            (i < 0 \/ GetRows (Image_of_Mat mat_three_dots) <= i).
Proof.
  apply (scan_fails_only_on_row_index (Image_of_Mat mat_three_dots) (BadIndex 11 20)).
  - apply Image_of_Mat_wf; unfold INT_MAX; simpl; lia.
  - vm_compute. reflexivity.
Defined.

(** ** The traversal of the flood fill *)

(** C2 (amended): on a well-formed image and for a seed in the grid, the
    flood fill visits the seed first, visits grid positions only, and with
    every visited pixel visits each of (x+1,y), (x,y+1), (x-1,y), (x,y-1)
    that lies in the grid, whatever its class; the output sequence is the
    caller's sequence followed by exactly the visited stroke-class pixels,
    in the order of the visit. *)
Theorem BFS_collects_visited_strokes image start bp :
  Image_wf image -> in_grid image start ->
  exists st visited,
    BFS_run start image bp = Done (st, visited) /\
    [start] `prefix_of` visited /\
    Forall (in_grid image) visited /\
    (forall p n, p ∈ visited -> n ∈ axis_neighbours p -> in_grid image n ->
                 n ∈ visited) /\
    BFS start image bp = Done (bp ++ filter (fun p => is_stroke image p) visited).
Proof.
  intros Hwf Hstart.
  destruct (BFS_output_spec image start bp Hwf Hstart)
    as (st & visited & Hrun & Hpre & Hgrid & Hclosed & Hout).
  exists st, visited. split; [done |]. split; [done |]. split; [done |].
  split; [| done]. intros p n Hp Hn Hn_grid.
  by apply (visited_adjacent image visited p n).
Qed.

Lemma BFS_collects_visited_strokes_witness :
  exists st visited,
    BFS_run (mkPixel 0 0) image_2x2 [] = Done (st, visited) /\
    (forall p n, p ∈ visited -> n ∈ axis_neighbours p -> in_grid image_2x2 n ->
                 n ∈ visited) /\
    BFS (mkPixel 0 0) image_2x2 [] = Done ([] ++ filter (fun p => is_stroke image_2x2 p) visited).
Proof.
  destruct (BFS_collects_visited_strokes image_2x2 (mkPixel 0 0) [])
    as (st & visited & Hrun & _ & _ & Hclosed & Hout).
  - split; [unfold GetRows, INT_MAX; simpl; lia |].
    exists 2%nat. split; [unfold INT_MAX; lia |]. repeat constructor.
  - unfold in_grid, GetRows, column_count. simpl. lia.
  - by exists st, visited.
Defined.

(** ** The verdict against the specification's rule *)

Lemma first_min_unique key pixels p q :
  first_min key pixels p -> first_min key pixels q -> p = q.
Proof.
  intros (i & Hi & Hall & Hfirst) (j & Hj & Hall' & Hfirst').
  destruct (Nat.lt_trichotomy i j) as [Hlt | [-> | Hgt]].
  - pose proof (Hfirst' i p Hlt Hi). eapply Forall_lookup_1 in Hall; [| exact Hj].
    simpl in Hall. lia.
  - congruence.
  - pose proof (Hfirst j q Hgt Hj). eapply Forall_lookup_1 in Hall'; [| exact Hi].
    simpl in Hall'. lia.
Qed.

Lemma first_max_unique key pixels p q :
  first_max key pixels p -> first_max key pixels q -> p = q.
Proof.
  intros (i & Hi & Hall & Hfirst) (j & Hj & Hall' & Hfirst').
  destruct (Nat.lt_trichotomy i j) as [Hlt | [-> | Hgt]].
  - pose proof (Hfirst' i p Hlt Hi). eapply Forall_lookup_1 in Hall; [| exact Hj].
    simpl in Hall. lia.
  - congruence.
  - pose proof (Hfirst j q Hgt Hj). eapply Forall_lookup_1 in Hall'; [| exact Hi].
    simpl in Hall'. lia.
Qed.

Lemma code_extremes bp :
  bp <> [] ->
  Forall (fun p => 0 <= x p < INT_MAX /\ 0 <= y p < INT_MAX) bp ->
  first_min x bp (GetLeftest bp) /\ first_max x bp (GetRightest bp) /\
  GetLowest bp = mkPixel 0 0 /\ first_max y bp (GetHighest bp).
Proof.
  intros Hne Hgrid.
  destruct bp as [|p0 bp']; [done |]. set (bp := p0 :: bp') in *.
  assert (p0 ∈ bp) as Hp0 by left.
  pose proof Hgrid as Hp0_grid. eapply Forall_forall in Hp0_grid; [| exact Hp0].
  split; [| split; [| split]].
  - unfold GetLeftest, first_min.
    change (foldl _ _ bp) with
      (foldl (search_step (fun k p => x p <? k) x) (Pixel_default, INT_MAX) bp).
    destruct (search_min_fold x bp Pixel_default INT_MAX)
      as [[Hall _] | (i & Hi & Hkey & _ & Hall & Hfirst)].
    + eapply Forall_forall in Hall; [| exact Hp0]. simpl in Hall. lia.
    + exists i. rewrite Hkey. done.
  - unfold GetRightest, first_max.
    change (foldl _ _ bp) with
      (foldl (search_step (fun k p => k <? x p) x) (Pixel_default, INT_MIN) bp).
    destruct (search_max_fold x bp Pixel_default INT_MIN)
      as [[Hall _] | (i & Hi & Hkey & _ & Hall & Hfirst)].
    + eapply Forall_forall in Hall; [| exact Hp0]. unfold INT_MIN in Hall. simpl in Hall. lia.
    + exists i. rewrite Hkey. done.
  - apply GetLowest_default. eapply Forall_impl; [exact Hgrid |].
    intros p Hp. unfold int_pixel, is_int, INT_MIN, INT_MAX in *. simpl in *. lia.
  - unfold GetHighest, first_max.
    change (foldl _ _ bp) with
      (foldl (search_step (fun k p => k <? y p) y) (Pixel_default, INT_MIN) bp).
    destruct (search_max_fold y bp Pixel_default INT_MIN)
      as [[Hall _] | (i & Hi & Hkey & _ & Hall & Hfirst)].
    + eapply Forall_forall in Hall; [| exact Hp0]. unfold INT_MIN in Hall. simpl in Hall. lia.
    + exists i. rewrite Hkey. done.
Qed.

(** C1 does not hold of the code. For every non-empty collected pixel set
    [IsIntersection] answers true exactly when no two of four pixels, over
    all pairs, are near - but the four are the leftmost (first minimum
    row), the rightmost (first maximum row), the corner (0,0) and the
    highest (first maximum column): the lowest pixel (minimum column) is
    not among them, (0,0) stands in its place. On [mat_three_dots] the
    collected set is (10,0), (5,5), (6,10); its rightmost and its lowest
    pixel are both (10,0), so by the rule of the specification the region
    is no junction, and the code answers true. *)
Theorem IsIntersection_ignores_lowest :
  (forall image start,
     Image_wf image -> in_grid image start ->
     exists bp verdict,
       BFS start image [] = Done bp /\
       IsIntersection start image = Done verdict /\
       (bp <> [] ->
        exists leftmost rightmost highest,
          first_min x bp leftmost /\ first_max x bp rightmost /\
          first_max y bp highest /\
          (verdict = true <->
           no_two_near [leftmost; rightmost; mkPixel 0 0; highest]))) /\
  (let image := Image_of_Mat mat_three_dots in
   let bp := [mkPixel 10 0; mkPixel 5 5; mkPixel 6 10] in
   BFS (mkPixel 0 0) image [] = Done bp /\
   IsIntersection (mkPixel 0 0) image = Done true /\
   first_max x bp (mkPixel 10 0) /\
   first_min y bp (mkPixel 10 0) /\
   near (mkPixel 10 0) (mkPixel 10 0) /\
   ~ spec_junction bp).
Proof.
  split.
  - intros image start Hwf Hstart.
    destruct (BFS_output_spec image start [] Hwf Hstart)
      as (st & visited & _ & _ & Hgrid & _ & Hout).
    simpl in Hout. set (bp := filter (fun p => is_stroke image p) visited) in *.
    exists bp, (classify bp). split; [done |]. split.
    { unfold IsIntersection. rewrite Hout. reflexivity. }
    intros Hne.
    assert (Forall (in_grid image) bp) as Hbp_grid.
    { apply Forall_forall. intros p [_ Hp]%list_elem_of_filter.
      eapply Forall_forall in Hgrid; eauto. }
    assert (Forall grid_pixel bp) as Hbp.
    { eapply Forall_impl; [exact Hbp_grid |]. intros p Hp.
      by apply (Image_wf_grid_pixel image). }
    destruct (code_extremes bp Hne) as (Hl & Hr & Hlow & Hh).
    { eapply Forall_impl; [exact Hbp_grid |]. intros p [Hx Hy].
      pose proof Hwf as [HR _]. pose proof (Image_wf_columns image Hwf). lia. }
    exists (GetLeftest bp), (GetRightest bp), (GetHighest bp).
    split; [done |]. split; [done |]. split; [done |].
    rewrite (classify_spec bp Hbp). unfold external_pixels. rewrite Hlow. done.
  - simpl.
    assert (first_max x [mkPixel 10 0; mkPixel 5 5; mkPixel 6 10] (mkPixel 10 0)) as Hright.
    { exists 0%nat. split; [done |]. split; [repeat constructor; simpl; lia |].
      intros i' q Hi'. lia. }
    assert (first_min y [mkPixel 10 0; mkPixel 5 5; mkPixel 6 10] (mkPixel 10 0)) as Hlowest.
    { exists 0%nat. split; [done |]. split; [repeat constructor; simpl; lia |].
      intros i' q Hi'. lia. }
    split; [vm_compute; reflexivity |]. split; [vm_compute; reflexivity |].
    split; [done |]. split; [done |]. split; [apply near_refl |].
    intros (l & r & lo & h & _ & Hr & Hlo & _ & Hpairs).
    rewrite (first_max_unique _ _ _ _ Hr Hright) in Hpairs.
    rewrite (first_min_unique _ _ _ _ Hlo Hlowest) in Hpairs.
    apply (Hpairs 1%nat 2%nat (mkPixel 10 0) (mkPixel 10 0)); [lia | done | done |].
    apply near_refl.
Qed.

Lemma IsIntersection_ignores_lowest_witness :
  exists bp verdict,
    BFS (mkPixel 0 0) (Image_of_Mat mat_three_dots) [] = Done bp /\
    IsIntersection (mkPixel 0 0) (Image_of_Mat mat_three_dots) = Done verdict /\
    (bp <> [] ->
     exists leftmost rightmost highest,
       first_min x bp leftmost /\ first_max x bp rightmost /\
       first_max y bp highest /\
       (verdict = true <->
        no_two_near [leftmost; rightmost; mkPixel 0 0; highest])).
Proof.
  apply (proj1 IsIntersection_ignores_lowest (Image_of_Mat mat_three_dots) (mkPixel 0 0)).
  - apply Image_of_Mat_wf; unfold INT_MAX; simpl; lia.
  - unfold in_grid, GetRows, column_count. simpl. lia.
Defined.
